(** * MoonTV live-TV core: playlist parsing, catalog cache and query,
      proxy rewriting and gateway, playback source fallback.

    A shallow embedding of
      - [src/lib/live-parser.ts]            (LiveChannelParser),
      - [src/app/api/live/route.ts]         (catalog cache and channel query),
      - [src/app/api/proxy/[...path]/route.ts] (proxy gateway),
      - the live play page component        (processUrl, loadVideo, handleRetry),
      - the channel list component          (processChannelUrls),
    together with the properties the specification states about them. *)

From Stdlib Require Import List ZArith NArith Bool Lia Ascii String Permutation.
From Stdlib Require Import Numbers.DecimalString Sorting.Sorted.
Import ListNotations.

Set Implicit Arguments.

(* ------------------------------------------------------------------ *)
(** * ECMAScript strings

    A JavaScript string is a sequence of UTF-16 code units; every string
    operation the sources use ([indexOf], [substring], [includes], ...)
    counts in code units, so strings are lists of code units here. *)

Module JsString.

Definition code_unit := N.
Definition jstring := list code_unit.

(** ASCII literals of the sources. *)
Definition lit (s : string) : jstring :=
  List.map N_of_ascii (list_ascii_of_string s).

Fixpoint eqb (a b : jstring) : bool :=
  match a, b with
  | [], [] => true
  | x :: a', y :: b' => N.eqb x y && eqb a' b'
  | _, _ => false
  end.

(** [s.startsWith(p)] *)
Fixpoint startsWith (p s : jstring) : bool :=
  match p, s with
  | [], _ => true
  | x :: p', y :: s' => N.eqb x y && startsWith p' s'
  | _ :: _, [] => false
  end.

(** [s.includes(p)] *)
Fixpoint includes (p s : jstring) : bool :=
  startsWith p s ||
  match s with
  | [] => false
  | _ :: s' => includes p s'
  end.

(** [s.indexOf(p)], [-1] when [p] does not occur. *)
Fixpoint indexOf_from (p s : jstring) (i : Z) : Z :=
  if startsWith p s then i
  else match s with
       | [] => (-1)%Z
       | _ :: s' => indexOf_from p s' (i + 1)%Z
       end.

Definition indexOf (p s : jstring) : Z := indexOf_from p s 0%Z.

(** Clamping of an index argument of [substring] to [0 .. length]. *)
Definition clamp (len i : Z) : Z := Z.max 0 (Z.min i len).

(** [s.substring(start)] and [s.substring(start, end)]; the two-argument
    form swaps its arguments when [start > end]. *)
Definition substring_from (start : Z) (s : jstring) : jstring :=
  skipn (Z.to_nat (clamp (Z.of_nat (List.length s)) start)) s.

Definition substring (start stop : Z) (s : jstring) : jstring :=
  let len := Z.of_nat (List.length s) in
  let a := clamp len start in
  let b := clamp len stop in
  let lo := Z.min a b in
  let hi := Z.max a b in
  firstn (Z.to_nat (hi - lo)) (skipn (Z.to_nat lo) s).

(** White space and line terminators removed by [trim]. *)
Definition isWhiteSpace (c : code_unit) : bool :=
  ((9 <=? c) && (c <=? 13) || (c =? 32) || (c =? 160) || (c =? 5760)
   || (8192 <=? c) && (c <=? 8202)
   || (c =? 8232) || (c =? 8233) || (c =? 8239) || (c =? 8287)
   || (c =? 12288) || (c =? 65279))%N.

Fixpoint trimStart (s : jstring) : jstring :=
  match s with
  | [] => []
  | c :: s' => if isWhiteSpace c then trimStart s' else s
  end.

Definition trimEnd (s : jstring) : jstring := rev (trimStart (rev s)).

Definition trim (s : jstring) : jstring := trimEnd (trimStart s).

(** [s.toLowerCase()].  The sources only search the lowered string for
    keywords made of ASCII letters, digits, punctuation and CJK
    ideographs.  The code units A-Z are mapped to a-z and every other
    code unit is kept: no other character lowers to one of the keyword
    characters, so every [includes] / [startsWith] test below has the
    value it has under the full Unicode mapping. *)
Definition lowerUnit (c : code_unit) : code_unit :=
  if ((65 <=? c) && (c <=? 90))%N then (c + 32)%N else c.

Definition toLowerCase (s : jstring) : jstring := List.map lowerUnit s.

(** [s.split(sep)] for a separator of one code unit (the sources split
    on a line feed and on a comma only). *)
Fixpoint split (sep : code_unit) (s : jstring) : list jstring :=
  match s with
  | [] => [[]]
  | c :: s' =>
      if N.eqb c sep then [] :: split sep s'
      else match split sep s' with
           | [] => [[c]]
           | w :: ws => (c :: w) :: ws
           end
  end.

(** [parts.join(sep)] *)
Fixpoint join (sep : jstring) (parts : list jstring) : jstring :=
  match parts with
  | [] => []
  | [w] => w
  | w :: ws => w ++ sep ++ join sep ws
  end.

(** [s.replace(p, r)] with a string pattern: the first occurrence only. *)
Fixpoint replace (p r s : jstring) : jstring :=
  if startsWith p s then r ++ skipn (List.length p) s
  else match s with
       | [] => []
       | c :: s' => c :: replace p r s'
       end.

(** Truthiness of a string: non-empty. *)
Definition truthy (s : jstring) : bool :=
  match s with [] => false | _ => true end.

End JsString.

Import JsString.

Declare Scope js_scope.
Delimit Scope js_scope with js.
Notation "` s" := (lit s) (at level 1, format "` s") : js_scope.
Local Open Scope js_scope.

(* ------------------------------------------------------------------ *)
(** * Exceptions

    A computation of the sources either returns a value or throws; a
    rejected promise of an [async] function is a throw. *)

Module Js.

Inductive Outcome (A : Type) : Type :=
| Returned (a : A)
| Thrown (message : jstring).

Arguments Returned {A} a.
Arguments Thrown {A} message.

Definition bind {A B} (m : Outcome A) (k : A -> Outcome B) : Outcome B :=
  match m with
  | Returned a => k a
  | Thrown e => Thrown e
  end.

(** [try { body } catch (error) { handler }] *)
Definition try_catch {A} (body : Outcome A) (handler : jstring -> A) : A :=
  match body with
  | Returned a => a
  | Thrown e => handler e
  end.

(** [Array.prototype.sort(cmp)]: the sort is stable; it is modelled as
    a stable insertion sort, which is what every conforming engine
    computes for a consistent comparator. *)
Section Sort.
Variable A : Type.
Variable cmp : A -> A -> Z.

Fixpoint insert (x : A) (l : list A) : list A :=
  match l with
  | [] => [x]
  | y :: l' => if (cmp x y <=? 0)%Z then x :: l else y :: insert x l'
  end.

Fixpoint sort (l : list A) : list A :=
  match l with
  | [] => []
  | x :: l' => insert x (sort l')
  end.
End Sort.

(** [Array.prototype.slice(start, end)] with integer arguments:
    negative indices count from the end, both are clamped to the
    array, and an empty array results when [end <= start]. *)
Definition relative_index (len i : Z) : Z :=
  if (i <? 0)%Z then Z.max (len + i) 0 else Z.min i len.

Definition slice {A} (start stop : Z) (l : list A) : list A :=
  let len := Z.of_nat (List.length l) in
  let k := relative_index len start in
  let final := relative_index len stop in
  firstn (Z.to_nat (Z.max (final - k) 0)) (skipn (Z.to_nat k) l).

(** The numbers the query handler computes: integers, or the values a
    division by zero yields. *)
Inductive Num := Finite (z : Z) | Infinity | NaN.

(** [Math.ceil(a / b)] for integers [a >= 0] and [b]. *)
Definition ceil_div (a b : Z) : Num :=
  if (b =? 0)%Z then (if (a =? 0)%Z then NaN else Infinity)
  else Finite (- ((- a) / b))%Z.

End Js.

Import Js.
Notation "x <- m ;; k" := (bind m (fun x => k))
  (at level 61, m at next level, right associativity) : js_scope.

(* ------------------------------------------------------------------ *)
(** * Types of [src/types/live.ts] *)

Inductive Format := HLS | DASH | FLV | RTMP.
Inductive Quality := SD | HD | FHD.

Record LiveChannel := mkChannel {
  ch_id : jstring;
  ch_name : jstring;
  ch_urls : list jstring;
  ch_category : jstring;
  ch_isActive : bool;
  ch_format : option Format;
  ch_quality : option Quality;
  ch_language : option jstring;
  ch_country : option jstring
}.

Record LiveCategory := mkCategory {
  cat_id : jstring;
  cat_name : jstring;
  cat_channels : list LiveChannel;
  cat_sortOrder : Z
}.

Record LivePlaylistItem := mkItem {
  item_name : jstring;
  item_url : jstring
}.

(* ------------------------------------------------------------------ *)
(** * LiveChannelParser: [src/lib/live-parser.ts] *)

Module LiveChannelParser.

(** The CJK keywords of [detectQuality], as code units. *)
Definition kw_gaoqing : jstring := [39640; 28165]%N.            (* 高清 *)
Definition kw_quangaoqing : jstring := [20840; 39640; 28165]%N.  (* 全高清 *)

Definition detectStreamFormat (url : jstring) : Format :=
  let urlLower := toLowerCase url in
  if includes `".m3u8" urlLower || includes `"hls" urlLower then HLS
  else if includes `".mpd" urlLower || includes `"dash" urlLower then DASH
  else if includes `".flv" urlLower then FLV
  else if startsWith `"rtmp://" urlLower then RTMP
  else HLS.

(** The HD keywords are tested first, as in the source. *)
Definition detectQuality (name : jstring) : Quality :=
  let nameLower := toLowerCase name in
  if includes `"hd" nameLower || includes kw_gaoqing nameLower then HD
  else if includes `"fhd" nameLower || includes `"1080p" nameLower
          || includes kw_quangaoqing nameLower then FHD
  else SD.


(** ** parseM3U *)

(** [content.split('\n').map(line => line.trim()).filter(Boolean)] *)
Definition lines_of (content : jstring) : list jstring :=
  filter truthy (List.map trim (split 10%N content)).

(** [const [, ...titleParts] = info.split(','); titleParts.join(',').trim()] *)
Definition extinf_title (info : jstring) : jstring :=
  trim (join `"," (tl (split 44%N info))).

(** The [for] loop over the line array.  [line :: rest] is the array
    from index [i] on, so [rest] starts at [lines[i + 1]]; the extra
    [i++] after an emitted [#EXTINF] pair continues after the URL line. *)
Fixpoint parseM3U_loop (lines : list jstring) : list LivePlaylistItem :=
  match lines with
  | [] => []
  | line :: rest =>
      if startsWith `"#EXTM3U" line || negb (truthy line) then
        parseM3U_loop rest
      else if startsWith `"#EXTINF:" line then
        let info := substring_from 8 line in
        match rest with
        | nextLine :: rest' =>
            if truthy nextLine && negb (startsWith `"#" nextLine) then
              mkItem (extinf_title info) nextLine :: parseM3U_loop rest'
            else parseM3U_loop rest
        | [] => parseM3U_loop rest
        end
      else if includes `",http" line then
        let parts := split 44%N line in
        let name := hd [] parts in
        let url := join `"," (tl parts) in
        if truthy name && truthy url then
          mkItem (trim name) (trim url) :: parseM3U_loop rest
        else parseM3U_loop rest
      else parseM3U_loop rest
  end.

Definition parseM3U (content : jstring) : list LivePlaylistItem :=
  parseM3U_loop (lines_of content).

(** ** parseChineseTVFormat *)

(** [Map<string, LiveChannel[]>]: entries in insertion order;
    [set] on a present key keeps the position of the entry. *)
Definition ChannelMap := list (jstring * list LiveChannel).

Fixpoint map_get (k : jstring) (m : ChannelMap) : option (list LiveChannel) :=
  match m with
  | [] => None
  | (k', v) :: m' => if eqb k' k then Some v else map_get k m'
  end.

Definition map_has (k : jstring) (m : ChannelMap) : bool :=
  match map_get k m with Some _ => true | None => false end.

Fixpoint map_set (k : jstring) (v : list LiveChannel) (m : ChannelMap)
  : ChannelMap :=
  match m with
  | [] => [(k, v)]
  | (k', v') :: m' =>
      if eqb k' k then (k', v) :: m' else (k', v') :: map_set k v m'
  end.

(** [s.replace(/[^a-zA-Z0-9一-龥-]/g, '-')] *)
Definition id_unit_ok (c : code_unit) : bool :=
  ((97 <=? c) && (c <=? 122) || (65 <=? c) && (c <=? 90)
   || (48 <=? c) && (c <=? 57) || (19968 <=? c) && (c <=? 40869)
   || (c =? 45))%N.

Definition sanitize_id (s : jstring) : jstring :=
  List.map (fun c => if id_unit_ok c then c else 45%N) s.

Definition uncategorized : jstring := [26410; 20998; 31867]%N. (* 未分类 *)
Definition arrow : jstring := [8594]%N.                        (* → *)

Definition newChannel (currentCategory channelName channelUrl : jstring)
  : LiveChannel :=
  {| ch_id := sanitize_id (currentCategory ++ `"-" ++ channelName);
     ch_name := channelName;
     ch_urls := [channelUrl];
     ch_category := currentCategory;
     ch_isActive := true;
     ch_format := Some (detectStreamFormat channelUrl);
     ch_quality := Some (detectQuality channelName);
     ch_language := Some `"zh-CN";
     ch_country := Some `"CN" |}.

Definition set_urls (ch : LiveChannel) (urls : list jstring) : LiveChannel :=
  {| ch_id := ch_id ch; ch_name := ch_name ch; ch_urls := urls;
     ch_category := ch_category ch; ch_isActive := ch_isActive ch;
     ch_format := ch_format ch; ch_quality := ch_quality ch;
     ch_language := ch_language ch; ch_country := ch_country ch |}.

(** [existingChannel.urls.push(channelUrl)] unless the list includes
    the URL already. *)
Definition addUrl (channelUrl : jstring) (ch : LiveChannel) : LiveChannel :=
  if existsb (eqb channelUrl) (ch_urls ch) then ch
  else set_urls ch (ch_urls ch ++ [channelUrl]).

(** The channel object [find] returns is the first one of that name in
    the array; it is updated in place. *)
Fixpoint updateExisting (channelName channelUrl : jstring)
  (chans : list LiveChannel) : list LiveChannel :=
  match chans with
  | [] => []
  | ch :: chans' =>
      if eqb (ch_name ch) channelName then addUrl channelUrl ch :: chans'
      else ch :: updateExisting channelName channelUrl chans'
  end.

Record ParseState := mkState {
  categories : ChannelMap;
  currentCategory : jstring
}.

Definition initialState : ParseState :=
  {| categories := []; currentCategory := uncategorized |}.

(** What a channel line yields: the name and the URL after the arrow,
    or nothing when the line is skipped. *)
Definition channelLine (line : jstring) : option (jstring * jstring) :=
  if negb (truthy line) || startsWith `"#" line then None
  else
    let arrowIndex := indexOf arrow line in
    if (arrowIndex =? -1)%Z then None
    else
      let afterArrow := substring_from (arrowIndex + 1) line in
      let commaIndex := indexOf `"," afterArrow in
      if (commaIndex =? -1)%Z then None
      else
        let channelName := trim (substring 0 commaIndex afterArrow) in
        let channelUrl := trim (substring_from (commaIndex + 1) afterArrow) in
        if negb (truthy channelName) || negb (truthy channelUrl) then None
        else Some (channelName, channelUrl).

(** One iteration of the loop over the lines. *)
Definition processLine (st : ParseState) (line : jstring) : ParseState :=
  if includes `",#genre#" line then
    let cur := trim (replace `",#genre#" [] line) in
    {| categories :=
         if map_has cur (categories st) then categories st
         else map_set cur [] (categories st);
       currentCategory := cur |}
  else
    match channelLine line with
    | None => st
    | Some (channelName, channelUrl) =>
        let cur := currentCategory st in
        let categoryChannels :=
          match map_get cur (categories st) with
          | Some chans => chans
          | None => []
          end in
        let categoryChannels' :=
          match find (fun ch => eqb (ch_name ch) channelName)
                     categoryChannels with
          | Some _ => updateExisting channelName channelUrl categoryChannels
          | None =>
              categoryChannels ++ [newChannel cur channelName channelUrl]
          end in
        {| categories := map_set cur categoryChannels' (categories st);
           currentCategory := cur |}
    end.

Section Collation.

(** [a.localeCompare(b, 'zh-CN')]: the collation of the platform. *)
Variable localeCompare : jstring -> jstring -> Z.

Definition byName (a b : LiveChannel) : Z :=
  localeCompare (ch_name a) (ch_name b).

(** The conversion of the map entries: empty categories are dropped
    and [sortOrder] counts the categories that are kept. *)
Fixpoint toCategories (entries : ChannelMap) (sortOrder : Z)
  : list LiveCategory :=
  match entries with
  | [] => []
  | (categoryName, channels) :: entries' =>
      if (0 <? Z.of_nat (List.length channels))%Z then
        {| cat_id := sanitize_id categoryName;
           cat_name := categoryName;
           cat_channels := sort byName channels;
           cat_sortOrder := sortOrder |}
        :: toCategories entries' (sortOrder + 1)
      else toCategories entries' sortOrder
  end.

Definition bySortOrder (a b : LiveCategory) : Z :=
  (cat_sortOrder a - cat_sortOrder b)%Z.

Definition parseChineseTVFormat (content : jstring) : list LiveCategory :=
  let st := fold_left processLine (lines_of content) initialState in
  sort bySortOrder (toCategories (categories st) 0).

End Collation.

End LiveChannelParser.

(* ------------------------------------------------------------------ *)
(** * The catalog API: [src/app/api/live/route.ts] *)

Module LiveApi.

(** What [JSON.parse(content)] can be, as far as [liveData.categories]
    goes: [null], on which the property access throws, or a value whose
    [categories] property is absent / falsy ([None]) or a category
    array. *)
Inductive LiveData :=
| JsonNull
| JsonValue (categories : option (list LiveCategory)).

(** The module-level cache variables. *)
Record Cache := mkCache {
  channelsCache : option (list LiveCategory);
  lastCacheUpdate : Z
}.

Definition initialCache : Cache :=
  {| channelsCache := None; lastCacheUpdate := 0 |}.

Definition CACHE_TTL : Z := 5 * 60 * 1000.

Record Pagination := mkPagination {
  pg_page : Z;
  pg_limit : Z;
  pg_total : Z;
  pg_pages : Num
}.

Record ChannelsResponse := mkChannelsResponse {
  channels : list LiveChannel;
  pagination : Pagination
}.

Section Platform.

(** [JSON.parse]: [Thrown] on malformed text. *)
Variable JSON_parse : jstring -> Outcome LiveData.
(** [a.localeCompare(b, 'zh-CN')] *)
Variable localeCompare : jstring -> jstring -> Z.

(** The body of the [try] block of [getChannelsData]; [file] is the
    outcome of [readFile(filePath, 'utf-8')]. *)
Definition loadCategories (file : Outcome jstring)
  : Outcome (list LiveCategory) :=
  content <- file ;;
  liveData <- JSON_parse content ;;
  match liveData with
  | JsonNull => Thrown `"Cannot read properties of null"
  | JsonValue (Some cats) => Returned cats
  | JsonValue None => Returned []
  end.

(** [getChannelsData()]: the value the promise resolves to, or the
    exception it rejects with, and the cache afterwards. *)
Definition getChannelsData (now : Z) (file : Outcome jstring) (c : Cache)
  : Outcome (list LiveCategory) * Cache :=
  let fresh :=
    match channelsCache c with
    | Some _ => (now - lastCacheUpdate c <? CACHE_TTL)%Z
    | None => false
    end in
  match channelsCache c, fresh with
  | Some cached, true => (Returned cached, c)
  | _, _ =>
      try_catch
        (cats <- loadCategories file ;;
         Returned (Returned cats,
                   {| channelsCache := Some cats; lastCacheUpdate := now |}))
        (fun _ =>
           (Returned match channelsCache c with
                     | Some cached => cached
                     | None => []
                     end, c))
  end.

(** [handleRefreshChannels]'s first two statements. *)
Definition clearCache (c : Cache) : Cache :=
  {| channelsCache := None; lastCacheUpdate := 0 |}.

Definition qualityOrder (q : option Quality) : Z :=
  match q with
  | Some FHD => 3
  | Some HD => 2
  | Some SD | None => 1
  end.

(** The comparator of [allChannels.sort] for a [sort] parameter. *)
Definition channelOrder (sortKey : jstring) (a b : LiveChannel) : Z :=
  if eqb sortKey `"name" then localeCompare (ch_name a) (ch_name b)
  else if eqb sortKey `"category" then
    localeCompare (ch_category a) (ch_category b)
  else if eqb sortKey `"quality" then
    (qualityOrder (ch_quality b) - qualityOrder (ch_quality a))%Z
  else 0%Z.

(** The channels selected by the [category] parameter. *)
Definition selectChannels (cats : list LiveCategory)
  (categoryId : option jstring) : list LiveChannel :=
  match categoryId with
  | Some cid =>
      if truthy cid then
        match find (fun cat => eqb (cat_id cat) cid) cats with
        | Some category => cat_channels category
        | None => []
        end
      else flat_map cat_channels cats
  | None => flat_map cat_channels cats
  end.

Definition sortedChannels (cats : list LiveCategory)
  (categoryId : option jstring) (sortKey : jstring) : list LiveChannel :=
  sort (channelOrder sortKey) (selectChannels cats categoryId).

(** [handleGetChannels] after [getChannelsData] returned [cats];
    [page] and [limit] are the integers [parseInt] produced.  The
    source computes in double precision; an array has fewer than 2^32
    elements, so a product or sum too large to be exact lies past the
    end of the array either way, and the quotient [length / limit] is
    never rounded across an integer: the slice and the ceiling are
    those of the integer arithmetic below. *)
Definition handleGetChannels (cats : list LiveCategory)
  (categoryId : option jstring) (page limit : Z) (sortKey : jstring)
  : ChannelsResponse :=
  let allChannels := sortedChannels cats categoryId sortKey in
  let startIndex := ((page - 1) * limit)%Z in
  let endIndex := (startIndex + limit)%Z in
  let paginatedChannels := slice startIndex endIndex allChannels in
  {| channels := paginatedChannels;
     pagination :=
       {| pg_page := page;
          pg_limit := limit;
          pg_total := Z.of_nat (List.length allChannels);
          pg_pages :=
            ceil_div (Z.of_nat (List.length allChannels)) limit |} |}.

End Platform.

End LiveApi.

(* ------------------------------------------------------------------ *)
(** * The platform's URL class

    [new URL(text)] is a service of the runtime; the sources read four
    properties of the object and rely on the constructor throwing on
    text that is not a URL.  The embedding takes the constructor as a
    parameter. *)

Record URLParts := mkURL {
  url_origin : jstring;
  url_host : jstring;
  url_pathname : jstring;
  url_search : jstring
}.

Definition URLConstructor := jstring -> Outcome URLParts.

(* ------------------------------------------------------------------ *)
(** * The proxy gateway: [src/app/api/proxy/[...path]/route.ts] *)

Module ProxyGateway.

Definition Headers := list (jstring * jstring).

(** [headers.get(key)]: header names compare without case. *)
Fixpoint headers_get (key : jstring) (hs : Headers) : option jstring :=
  match hs with
  | [] => None
  | (k, v) :: hs' =>
      if eqb (toLowerCase k) (toLowerCase key) then Some v
      else headers_get key hs'
  end.

(** [headers.set(key, value)] *)
Definition headers_set (key value : jstring) (hs : Headers) : Headers :=
  filter (fun kv => negb (eqb (toLowerCase (fst kv)) (toLowerCase key))) hs
  ++ [(toLowerCase key, value)].

(** [keys.forEach(key => { const value = from.get(key);
                           if (value) to.set(key, value); })] *)
Definition copy_headers (keys : list jstring) (from to : Headers) : Headers :=
  fold_left
    (fun acc key =>
       match headers_get key from with
       | Some value => if truthy value then headers_set key value acc else acc
       | None => acc
       end)
    keys to.

Record Request := mkRequest {
  req_url : jstring;
  req_headers : Headers
}.

Inductive Method := GET_ | HEAD_.

(** One contact of the upstream server: a call of [fetch]. *)
Record FetchCall := mkFetch {
  fetch_url : jstring;
  fetch_method : Method;
  fetch_headers : Headers
}.

Record UpstreamResponse := mkUpstream {
  up_status : Z;
  up_statusText : jstring;
  up_headers : Headers;
  up_body : jstring
}.

(** [response.ok] *)
Definition up_ok (r : UpstreamResponse) : bool :=
  ((200 <=? up_status r) && (up_status r <=? 299))%Z.

Inductive Body :=
| BodyNull
| BodyText (text : jstring)
| BodyStream (upstream : jstring).

Record Response := mkResponse {
  status : Z;
  statusText : jstring;
  body : Body;
  headers : Headers
}.

Definition decimal (z : Z) : jstring :=
  lit (NilEmpty.string_of_uint (N.to_uint (Z.to_N z))).

Section Platform.

Variable newURL : URLConstructor.
(** [fetch(targetUrl, { method, headers })]; [Thrown] is a network
    failure. *)
Variable fetch : FetchCall -> Outcome UpstreamResponse.

(** A handler's result: the response and the upstream contacts made
    while computing it, oldest first. *)
Definition Handled := (Response * list FetchCall)%type.

Definition targetUrlOf (host : jstring) (rest : list jstring)
  (search : jstring) : jstring :=
  `"https://" ++ host ++ `"/" ++ join `"/" rest ++ search.

Definition GET (request : Request) (path : option (list jstring))
  : Handled :=
  match path with
  | None | Some [] =>
      ({| status := 400; statusText := []; body := BodyText `"Missing path";
          headers := [] |}, [])
  | Some (host :: rest) =>
      let failed (e : jstring) (log : list FetchCall) : Handled :=
        ({| status := 500; statusText := [];
            body := BodyText (`"Proxy error: " ++ e); headers := [] |},
         log) in
      match newURL (req_url request) with
      | Thrown e => failed e []
      | Returned url =>
          let targetUrl := targetUrlOf host rest (url_search url) in
          let hs :=
            copy_headers [`"range"; `"accept"; `"user-agent"]
                         (req_headers request) [] in
          match newURL targetUrl with
          | Thrown e => failed e []
          | Returned target =>
              let hs := headers_set `"Origin" (url_origin target) hs in
              let hs := headers_set `"Referer" (url_origin target) hs in
              let call := {| fetch_url := targetUrl; fetch_method := GET_;
                             fetch_headers := hs |} in
              match fetch call with
              | Thrown e => failed e [call]
              | Returned response =>
                  if negb (up_ok response) then
                    ({| status := up_status response; statusText := [];
                        body := BodyText
                          (`"Proxy error: " ++ decimal (up_status response)
                           ++ `" " ++ up_statusText response);
                        headers := [] |}, [call])
                  else
                    let rh :=
                      copy_headers
                        [`"content-type"; `"content-length";
                         `"content-range"; `"accept-ranges";
                         `"cache-control"; `"last-modified"; `"etag"]
                        (up_headers response) [] in
                    let rh := headers_set `"Access-Control-Allow-Origin"
                                `"*" rh in
                    let rh := headers_set `"Access-Control-Allow-Methods"
                                `"GET, HEAD, OPTIONS" rh in
                    let rh := headers_set `"Access-Control-Allow-Headers"
                                `"Range, Accept, User-Agent" rh in
                    let rh := headers_set `"Access-Control-Expose-Headers"
                                `"Content-Range, Content-Length, Accept-Ranges"
                                rh in
                    ({| status := up_status response;
                        statusText := up_statusText response;
                        body := BodyStream (up_body response);
                        headers := rh |}, [call])
              end
          end
      end
  end.

Definition HEAD (request : Request) (path : option (list jstring))
  : Handled :=
  match path with
  | None | Some [] =>
      ({| status := 400; statusText := []; body := BodyNull;
          headers := [] |}, [])
  | Some (host :: rest) =>
      let failed (log : list FetchCall) : Handled :=
        ({| status := 500; statusText := []; body := BodyNull;
            headers := [] |}, log) in
      match newURL (req_url request) with
      | Thrown _ => failed []
      | Returned url =>
          let targetUrl := targetUrlOf host rest (url_search url) in
          match newURL targetUrl with
          | Thrown _ => failed []
          | Returned target =>
              let hs := headers_set `"Origin" (url_origin target) [] in
              let hs := headers_set `"Referer" (url_origin target) hs in
              let call := {| fetch_url := targetUrl; fetch_method := HEAD_;
                             fetch_headers := hs |} in
              match fetch call with
              | Thrown _ => failed [call]
              | Returned response =>
                  let rh :=
                    copy_headers
                      [`"content-type"; `"content-length";
                       `"accept-ranges"; `"cache-control";
                       `"last-modified"; `"etag"]
                      (up_headers response) [] in
                  let rh := headers_set `"Access-Control-Allow-Origin"
                              `"*" rh in
                  let rh := headers_set `"Access-Control-Allow-Methods"
                              `"GET, HEAD, OPTIONS" rh in
                  ({| status := up_status response; statusText := [];
                      body := BodyNull; headers := rh |}, [call])
              end
          end
      end
  end.

End Platform.

End ProxyGateway.

(* ------------------------------------------------------------------ *)
(** * The channel list component: [processChannelUrls] *)

Module LiveChannelList.

Section Browser.

(** [window.location.protocol], [None] when [window] is undefined. *)
Variable pageProtocol : option jstring.
Variable newURL : URLConstructor.

Definition onPage (protocol : jstring) : bool :=
  match pageProtocol with
  | Some p => eqb p protocol
  | None => false
  end.

(** The function mapped over [channel.urls]: the [catch] returns the
    original URL. *)
Definition processChannelUrl (url : jstring) : jstring :=
  if startsWith `"https://" url then
    try_catch
      (urlObj <- newURL url ;;
       Returned (`"/proxy/" ++ url_host urlObj ++ url_pathname urlObj
                 ++ url_search urlObj))
      (fun _ => url)
  else url.

Definition processChannelUrls (channel : LiveChannel) : LiveChannel :=
  if onPage `"http:" then
    LiveChannelParser.set_urls channel
      (List.map processChannelUrl (ch_urls channel))
  else channel.

End Browser.

End LiveChannelList.

(* ------------------------------------------------------------------ *)
(** * The live play page: [processUrl], [loadVideo], [handleRetry],
      [handleSourceSelect] *)

Module LivePlayPage.

Inductive StreamStatus := connecting | connected | error | idle.

(** An adaptive-streaming engine instance ([new window.Hls()]) that has
    been constructed and not destroyed. *)
Record Engine := mkEngine {
  engine_id : nat;
  engine_source : jstring
}.

(** The browser the component runs in. *)
Record Browser := mkBrowser {
  pageProtocol : option jstring;   (* [window.location.protocol] *)
  hlsSupported : bool;             (* [window.Hls?.isSupported()] *)
  newURL : URLConstructor
}.

(** The component state the handlers touch, the [<video>] element's
    [hls] and [src] properties, and the engine instances alive.
    [statusTrace] records every [setStreamStatus] call, latest first. *)
Record Player := mkPlayer {
  channel : option LiveChannel;
  currentUrlIndex : nat;
  isLoading : bool;
  errorMessage : option jstring;
  streamStatus : StreamStatus;
  showSourceSelector : bool;
  video_hls : option nat;
  video_src : option jstring;
  engines : list Engine;
  constructed : nat;
  statusTrace : list StreamStatus
}.

Definition setCurrentUrlIndex (i : nat) (s : Player) : Player :=
  mkPlayer (channel s) i (isLoading s) (errorMessage s) (streamStatus s)
    (showSourceSelector s) (video_hls s) (video_src s) (engines s)
    (constructed s) (statusTrace s).

Definition setIsLoading (b : bool) (s : Player) : Player :=
  mkPlayer (channel s) (currentUrlIndex s) b (errorMessage s)
    (streamStatus s) (showSourceSelector s) (video_hls s) (video_src s)
    (engines s) (constructed s) (statusTrace s).

Definition setError (e : option jstring) (s : Player) : Player :=
  mkPlayer (channel s) (currentUrlIndex s) (isLoading s) e (streamStatus s)
    (showSourceSelector s) (video_hls s) (video_src s) (engines s)
    (constructed s) (statusTrace s).

Definition setStreamStatus (st : StreamStatus) (s : Player) : Player :=
  mkPlayer (channel s) (currentUrlIndex s) (isLoading s) (errorMessage s) st
    (showSourceSelector s) (video_hls s) (video_src s) (engines s)
    (constructed s) (st :: statusTrace s).

Definition setShowSourceSelector (b : bool) (s : Player) : Player :=
  mkPlayer (channel s) (currentUrlIndex s) (isLoading s) (errorMessage s)
    (streamStatus s) b (video_hls s) (video_src s) (engines s)
    (constructed s) (statusTrace s).

(** [const hls = new window.Hls(); hls.loadSource(url);
     hls.attachMedia(video); ...; video.hls = hls] *)
Definition attachHls (url : jstring) (s : Player) : Player :=
  let id := constructed s in
  mkPlayer (channel s) (currentUrlIndex s) (isLoading s) (errorMessage s)
    (streamStatus s) (showSourceSelector s) (Some id) (video_src s)
    (engines s ++ [mkEngine id url]) (S id) (statusTrace s).

(** [video.src = url; video.load()] *)
Definition setVideoSrc (url : jstring) (s : Player) : Player :=
  mkPlayer (channel s) (currentUrlIndex s) (isLoading s) (errorMessage s)
    (streamStatus s) (showSourceSelector s) (video_hls s) (Some url)
    (engines s) (constructed s) (statusTrace s).

(** [if (videoRef.current?.hls) { videoRef.current.hls.destroy();
                                  videoRef.current.hls = null; }] *)
Definition destroyHls (s : Player) : Player :=
  match video_hls s with
  | Some id =>
      mkPlayer (channel s) (currentUrlIndex s) (isLoading s)
        (errorMessage s) (streamStatus s) (showSourceSelector s) None
        (video_src s)
        (filter (fun e => negb (Nat.eqb (engine_id e) id)) (engines s))
        (constructed s) (statusTrace s)
  | None => s
  end.

Definition msg_init_failed : jstring :=
  [21021; 22987; 21270; 25773; 25918; 22120; 22833; 36133]%N.
(* 初始化播放器失败 *)

Section InBrowser.

Variable browser : Browser.

Definition onPage (protocol : jstring) : bool :=
  match pageProtocol browser with
  | Some p => eqb p protocol
  | None => false
  end.

Definition windowDefined : bool :=
  match pageProtocol browser with Some _ => true | None => false end.

Definition proxied (prefix : jstring) (u : URLParts) : jstring :=
  prefix ++ url_host u ++ url_pathname u ++ url_search u.

(** [processUrl]: no [try] around [new URL(url)]. *)
Definition processUrl (url : jstring) : Outcome jstring :=
  if onPage `"http:" && startsWith `"https://" url then
    urlObj <- newURL browser url ;;
    Returned (proxied `"/proxy/" urlObj)
  else if windowDefined && startsWith `"http://" url && onPage `"https:" then
    urlObj <- newURL browser url ;;
    Returned (proxied `"/httpproxy/" urlObj)
  else Returned url.

(** The [try] block of [loadVideo] after the three state updates:
    [channel.urls[index]] is [undefined] out of range, and the first
    method call on it throws. *)
Definition startPlayback (urls : list jstring) (index : nat) (s : Player)
  : Outcome Player :=
  match nth_error urls index with
  | None => Thrown `"TypeError"
  | Some originalUrl =>
      url <- processUrl originalUrl ;;
      if includes `".m3u8" url && hlsSupported browser then
        Returned (attachHls url s)
      else Returned (setVideoSrc url s)
  end.

(** [loadVideo] as created by the render in which [currentUrlIndex]
    was [index]: the callback reads the index it closed over, not
    the state.  The [<video>] element is rendered whenever [channel]
    is set, so [videoRef.current] is present exactly then. *)
Definition loadVideo (index : nat) (s : Player) : Player :=
  match channel s with
  | None => s
  | Some ch =>
      let s1 := setStreamStatus connecting (setError None (setIsLoading true s)) in
      try_catch (startPlayback (ch_urls ch) index s1)
        (fun _ =>
           setStreamStatus error
             (setIsLoading false (setError (Some msg_init_failed) s1)))
  end.

(** The effect [useEffect(() => { if (channel && videoRef.current)
    loadVideo(); }, [channel, currentUrlIndex, loadVideo])] after an
    event handler that leaves [channel] alone: it runs again exactly
    when [currentUrlIndex] differs from the previous render's. *)
Definition rerender (previousIndex : nat) (s : Player) : Player :=
  if Nat.eqb previousIndex (currentUrlIndex s) then s
  else loadVideo (currentUrlIndex s) s.

Definition handleRetry (s : Player) : Player :=
  match channel s with
  | None => s
  | Some ch =>
      let index := currentUrlIndex s in
      let s1 := destroyHls s in
      if (Z.of_nat index <? Z.of_nat (List.length (ch_urls ch)) - 1)%Z then
        rerender index (setCurrentUrlIndex (index + 1) s1)
      else
        rerender index (loadVideo index (setCurrentUrlIndex 0 s1))
  end.

Definition handleSourceSelect (index : nat) (s : Player) : Player :=
  match channel s with
  | None => s
  | Some _ =>
      if Nat.eqb index (currentUrlIndex s) then s
      else
        let previous := currentUrlIndex s in
        rerender previous
          (setShowSourceSelector false
             (setCurrentUrlIndex index (destroyHls s)))
  end.

(** The fatal branch of the engine's error event, and the native
    element's error event. *)
Definition fatalError (message : jstring) (s : Player) : Player :=
  setStreamStatus error (setIsLoading false (setError (Some message) s)).

(** The state before a channel is set. *)
Definition initialPlayer : Player :=
  mkPlayer None 0 true None idle false None None [] 0 [].

(** The first render with the channel read from the page URL, and
    the effect that loads the video. *)
Definition openChannel (ch : LiveChannel) : Player :=
  let s := initialPlayer in
  loadVideo 0
    (mkPlayer (Some ch) (currentUrlIndex s) (isLoading s) (errorMessage s)
       (streamStatus s) (showSourceSelector s) (video_hls s) (video_src s)
       (engines s) (constructed s) (statusTrace s)).

(** The user operations of a session. *)
Inductive Action :=
| Retry
| SelectSource (index : nat)
| FatalError (message : jstring).

Definition perform (s : Player) (a : Action) : Player :=
  match a with
  | Retry => handleRetry s
  | SelectSource i => handleSourceSelect i s
  | FatalError m => fatalError m s
  end.

Definition run (s : Player) (actions : list Action) : Player :=
  fold_left perform actions s.

End InBrowser.

End LivePlayPage.

(* ------------------------------------------------------------------ *)
(** * A URL constructor for absolute http(s) URLs

    What [new URL(text)] yields on text of the shape
    [scheme://host/path?query#fragment] with plain ASCII parts, and its
    [TypeError] when the host is missing; used to run the functions above
    on concrete inputs. *)

Module PlainURL.

Fixpoint span (stop : code_unit -> bool) (s : jstring) : jstring * jstring :=
  match s with
  | [] => ([], [])
  | c :: s' =>
      if stop c then ([], s)
      else let (a, b) := span stop s' in (c :: a, b)
  end.

Definition isOneOf (cs : list code_unit) (c : code_unit) : bool :=
  existsb (N.eqb c) cs.

Definition afterScheme (scheme rest : jstring) : Outcome URLParts :=
  let (host, r1) := span (isOneOf [47; 63; 35]%N) rest in
  if truthy host then
    let (path, r2) := span (isOneOf [63; 35]%N) r1 in
    let (query, _) := span (isOneOf [35]%N) r2 in
    Returned {| url_origin := scheme ++ `"://" ++ host;
                url_host := host;
                url_pathname := if truthy path then path else `"/";
                url_search :=
                  if (List.length query <=? 1)%nat then [] else query |}
  else Thrown `"Invalid URL".

Definition construct : URLConstructor :=
  fun text =>
    if startsWith `"https://" text then afterScheme `"https" (skipn 8 text)
    else if startsWith `"http://" text then afterScheme `"http" (skipn 7 text)
    else Thrown `"Invalid URL".

End PlainURL.

(* ------------------------------------------------------------------ *)
(** * Notions the specification uses *)

Module SpecWords.

(** The text after the first occurrence of a separator (empty when the
    separator does not occur). *)
Fixpoint afterFirst (sep : code_unit) (s : jstring) : jstring :=
  match s with
  | [] => []
  | c :: s' => if N.eqb c sep then s' else afterFirst sep s'
  end.

(** The text after the last occurrence of a separator: the last piece
    of the split. *)
Definition afterLast (sep : code_unit) (s : jstring) : jstring :=
  last (split sep s) [].

(** The payload of an [#EXTINF:] line. *)
Definition extinfPayload (line : jstring) : jstring := substring_from 8 line.

(** The title of an [#EXTINF:] line as the specification words it:
    everything after the last comma of the payload. *)
Definition titleAfterLastComma (line : jstring) : jstring :=
  trim (afterLast 44%N (extinfPayload line)).

(** The title as everything after the first comma of the payload. *)
Definition titleAfterFirstComma (line : jstring) : jstring :=
  trim (afterFirst 44%N (extinfPayload line)).

(** A line feed, to build multi-line inputs. *)
Definition LF : jstring := [10%N].

End SpecWords.

(* ------------------------------------------------------------------ *)
(** * The delimited catalog as a list of channel entries *)

Module CatalogEntries.
Import LiveChannelParser.

(** A channel line together with the category in force when it is read. *)
Record Entry := mkEntry {
  entry_category : jstring;
  entry_name : jstring;
  entry_url : jstring
}.

(** The entries of a list of lines, in file order; [cur] is the category
    in force before the first line. *)
Fixpoint entriesFrom (cur : jstring) (lines : list jstring) : list Entry :=
  match lines with
  | [] => []
  | line :: rest =>
      if includes `",#genre#" line then
        entriesFrom (trim (replace `",#genre#" [] line)) rest
      else
        match channelLine line with
        | Some (name, url) => mkEntry cur name url :: entriesFrom cur rest
        | None => entriesFrom cur rest
        end
  end.

Definition entriesOf (content : jstring) : list Entry :=
  entriesFrom uncategorized (lines_of content).

Definition isFor (category name : jstring) (e : Entry) : bool :=
  eqb (entry_category e) category && eqb (entry_name e) name.

(** The URLs given for a channel name within a category, in encounter
    order, repetitions included. *)
Definition urlsSeen (category name : jstring) (es : list Entry) : list jstring :=
  List.map entry_url (filter (isFor category name) es).

(** Encounter order without repetitions: a URL is kept the first time
    it is seen. *)
Definition pushNew (acc : list jstring) (u : jstring) : list jstring :=
  if existsb (eqb u) acc then acc else acc ++ [u].

Definition dedupe (us : list jstring) : list jstring := fold_left pushNew us [].

(** The channels a category holds under a name, given the URLs seen for
    it: none when there are none, else the one channel created from the
    first URL and holding the distinct URLs. *)
Definition expectedChannels (category name : jstring) (us : list jstring)
  : list LiveChannel :=
  match us with
  | [] => []
  | first :: _ => [set_urls (newChannel category name first) (dedupe us)]
  end.

Definition named (name : jstring) (ch : LiveChannel) : bool :=
  eqb (ch_name ch) name.

Definition channelsOf (category : jstring) (m : ChannelMap) : list LiveChannel :=
  match map_get category m with
  | Some chans => chans
  | None => []
  end.

(** The map holds, under every category and name, exactly the channels
    expected from the entries read so far. *)
Definition Holds (m : ChannelMap) (es : list Entry) : Prop :=
  forall c n,
    filter (named n) (channelsOf c m) = expectedChannels c n (urlsSeen c n es).

End CatalogEntries.

(* ------------------------------------------------------------------ *)
(** * Sample inputs *)

Module Samples.
Import LiveChannelParser SpecWords.

(** A delimited catalog with two [,#genre#] markers; in the second
    category three lines share a channel name, the third repeating the
    URL of the first. *)
Definition twoGenres : jstring :=
  `"News,#genre#" ++ LF
  ++ `"1" ++ arrow ++ `"CCTV1,http://x/1.m3u8" ++ LF
  ++ `"Sports,#genre#" ++ LF
  ++ `"1" ++ arrow ++ `"CCTV5 HD,http://a/5.m3u8" ++ LF
  ++ `"2" ++ arrow ++ `"CCTV5 HD,http://b/5.flv" ++ LF
  ++ `"3" ++ arrow ++ `"CCTV5 HD,http://a/5.m3u8".

Definition cctv1 : LiveChannel :=
  {| ch_id := `"News-CCTV1"; ch_name := `"CCTV1";
     ch_urls := [`"http://x/1.m3u8"]; ch_category := `"News";
     ch_isActive := true; ch_format := Some HLS; ch_quality := Some SD;
     ch_language := Some `"zh-CN"; ch_country := Some `"CN" |}.

Definition cctv5 : LiveChannel :=
  {| ch_id := `"Sports-CCTV5-HD"; ch_name := `"CCTV5 HD";
     ch_urls := [`"http://a/5.m3u8"; `"http://b/5.flv"];
     ch_category := `"Sports";
     ch_isActive := true; ch_format := Some HLS; ch_quality := Some HD;
     ch_language := Some `"zh-CN"; ch_country := Some `"CN" |}.

Definition news : LiveCategory :=
  {| cat_id := `"News"; cat_name := `"News"; cat_channels := [cctv1];
     cat_sortOrder := 0 |}.

Definition sports : LiveCategory :=
  {| cat_id := `"Sports"; cat_name := `"Sports"; cat_channels := [cctv5];
     cat_sortOrder := 1 |}.

(** A collation that ranks all names equal. *)
Definition flatCollation : jstring -> jstring -> Z := fun _ _ => 0%Z.

End Samples.

(* ------------------------------------------------------------------ *)
(** * Playback sessions: derived notions and samples *)

Module Sessions.
Import LivePlayPage.

(** The URL [loadVideo] hands to the player for candidate [index], or
    the exception raised while computing it. *)
Definition playbackUrl (browser : Browser) (urls : list jstring) (index : nat)
  : Outcome jstring :=
  match nth_error urls index with
  | None => Thrown `"TypeError"
  | Some originalUrl => processUrl browser originalUrl
  end.

(** The index [retry] is to move to. *)
Definition nextIndex (n index : nat) : nat :=
  if (index + 1 <? n)%nat then index + 1 else 0.

(** The engine instances alive are exactly the one the [<video>]
    element refers to, if any. *)
Definition SingleEngine (s : Player) : Prop :=
  List.map engine_id (engines s) =
    match video_hls s with
    | Some id => [id]
    | None => []
    end.

(** A page served over plain HTTP by a browser with engine support. *)
Definition httpPage : Browser :=
  {| pageProtocol := Some `"http:"; hlsSupported := true;
     newURL := PlainURL.construct |}.

Definition httpsPage : Browser :=
  {| pageProtocol := Some `"https:"; hlsSupported := true;
     newURL := PlainURL.construct |}.

Definition channelWith (urls : list jstring) : LiveChannel :=
  {| ch_id := `"c"; ch_name := `"C"; ch_urls := urls; ch_category := `"Live";
     ch_isActive := true; ch_format := None; ch_quality := None;
     ch_language := None; ch_country := None |}.

Definition twoSources : LiveChannel :=
  channelWith [`"http://x/a.m3u8"; `"http://x/b.m3u8"].

Definition threeSources : LiveChannel :=
  channelWith [`"http://x/a.m3u8"; `"http://x/b.m3u8"; `"http://x/c.m3u8"].

Definition fatal : Action := FatalError `"networkError".

End Sessions.

(* ------------------------------------------------------------------ *)
(** * LiveChannelParser: serialization and name normalization *)

Module ParserTools.
Import LiveChannelParser.

Definition quote : jstring := [34%N].
Definition lineFeed : jstring := [10%N].

(** [${channel.urls[0]}] in a template: the text "undefined" when the
    array is empty. *)
Definition firstUrlText (ch : LiveChannel) : jstring :=
  match ch_urls ch with
  | [] => `"undefined"
  | u :: _ => u
  end.

(** The two lines [toM3U] appends for a channel, each followed by its
    line feeds. *)
Definition extinfLine (categoryName : jstring) (ch : LiveChannel) : jstring :=
  `"#EXTINF:-1 tvg-name=" ++ quote ++ ch_name ch ++ quote
  ++ `" group-title=" ++ quote ++ categoryName ++ quote
  ++ `"," ++ ch_name ch.

Definition m3uEntry (categoryName : jstring) (ch : LiveChannel) : jstring :=
  extinfLine categoryName ch ++ lineFeed
  ++ firstUrlText ch ++ lineFeed ++ lineFeed.

Definition toM3U (categories : list LiveCategory) : jstring :=
  `"#EXTM3U" ++ lineFeed ++ lineFeed
  ++ flat_map (fun category =>
                 flat_map (m3uEntry (cat_name category))
                          (cat_channels category))
              categories.

(** [s.replace(/\s+/g, rep)]: every maximal run of white space becomes
    [rep]; [inRun] tells that the previous code unit was white space. *)
Fixpoint replaceRuns (rep : jstring) (inRun : bool) (s : jstring) : jstring :=
  match s with
  | [] => []
  | c :: s' =>
      if isWhiteSpace c then
        (if inRun then replaceRuns rep true s'
         else rep ++ replaceRuns rep true s')
      else c :: replaceRuns rep false s'
  end.

Definition replaceWhiteSpace (rep s : jstring) : jstring :=
  replaceRuns rep false s.

(** [\w] *)
Definition isWordUnit (c : code_unit) : bool :=
  ((97 <=? c) && (c <=? 122) || (65 <=? c) && (c <=? 90)
   || (48 <=? c) && (c <=? 57) || (c =? 95))%N.

Definition isCJK (c : code_unit) : bool :=
  ((19968 <=? c) && (c <=? 40869))%N.

(** The units [/[^\w\s一-龥-]/g] leaves in place. *)
Definition nameUnitKept (c : code_unit) : bool :=
  isWordUnit c || isWhiteSpace c || isCJK c || (c =? 45)%N.

Definition normalizeChannelName (name : jstring) : jstring :=
  trim (filter nameUnitKept (replaceWhiteSpace `" " (trim name))).

(** [generateChannelId]; the text lowered holds ASCII and CJK units
    only, on which [toLowerCase] is the platform's. *)
Definition generateChannelId (name category : jstring) : jstring :=
  let cleanName := normalizeChannelName name in
  let cleanCategory := filter id_unit_ok category in
  toLowerCase (replaceWhiteSpace `"-" (cleanCategory ++ `"-" ++ cleanName)).

(** The units a generated id can hold. *)
Definition isIdUnit (c : code_unit) : bool :=
  ((97 <=? c) && (c <=? 122) || (48 <=? c) && (c <=? 57) || (c =? 95)
   || (c =? 45))%N || isCJK c.

(** The units of a normalized name: word units, CJK ideographs, the
    hyphen and the plain space. *)
Definition isNameUnit (c : code_unit) : bool :=
  isWordUnit c || isCJK c || (c =? 45)%N || (c =? 32)%N.

(** The payload of an exported [#EXTINF] line up to its last comma. *)
Definition attributes (categoryName : jstring) (ch : LiveChannel) : jstring :=
  `"-1 tvg-name=" ++ quote ++ ch_name ch ++ quote
  ++ `" group-title=" ++ quote ++ categoryName ++ quote.

(** Text without comma and line feed. *)
Definition plainText (s : jstring) : Prop :=
  Forall (fun c => c <> 44%N /\ c <> 10%N) s.

(** A channel [toM3U] writes so that [parseM3U] reads it back: the
    names hold no comma and no line feed (an attribute value with a
    comma would cut the title short), and the URL written is one line
    that is not blank and does not look like a comment. *)
Definition exportable (categoryName : jstring) (ch : LiveChannel) : Prop :=
  plainText categoryName
  /\ plainText (ch_name ch)
  /\ Forall (fun c => c <> 10%N) (firstUrlText ch)
  /\ trim (firstUrlText ch) <> []
  /\ startsWith `"#" (trim (firstUrlText ch)) = false.

Definition Exportable (categories : list LiveCategory) : Prop :=
  Forall (fun category =>
            Forall (exportable (cat_name category)) (cat_channels category))
         categories.

(** What is read back for a channel. *)
Definition exportedItem (ch : LiveChannel) : LivePlaylistItem :=
  mkItem (trim (ch_name ch)) (trim (firstUrlText ch)).

End ParserTools.

(* ------------------------------------------------------------------ *)
(** * The live page: hand-over to the player, favorites *)

Module LivePage.

(** The [urls] parameter [handleChannelSelect] puts in the player's page
    address; [URLSearchParams] returns a parameter as it was given. *)
Definition urlsParam (ch : LiveChannel) : jstring := join `"," (ch_urls ch).

(** [searchParams.get('urls')?.split(',') || []] in the player page. *)
Definition urlsOfParam (param : option jstring) : list jstring :=
  match param with
  | Some p => split 44%N p
  | None => []
  end.

(** The state update of [handleToggleFavorite]. *)
Definition toggleFavorite (channelId : jstring) (prev : list jstring)
  : list jstring :=
  if existsb (fun id => eqb id channelId) prev then
    filter (fun id => negb (eqb id channelId)) prev
  else prev ++ [channelId].

End LivePage.

(* ------------------------------------------------------------------ *)
(** * The catalog API: the other handlers *)

Module LiveApiHandlers.
Import LiveApi.

(** An entry of [handleGetCategories]; the optional description and
    icon of a category are not part of the category model. *)
Record CategorySummary := mkSummary {
  sum_id : jstring;
  sum_name : jstring;
  sum_sortOrder : Z;
  sum_channelCount : Z
}.

Definition handleGetCategories (cats : list LiveCategory)
  : list CategorySummary :=
  List.map (fun cat =>
              {| sum_id := cat_id cat; sum_name := cat_name cat;
                 sum_sortOrder := cat_sortOrder cat;
                 sum_channelCount := Z.of_nat (List.length (cat_channels cat)) |})
           cats.

Record CategoryCount := mkCount {
  count_category : jstring;
  count_count : Z
}.

Record Stats := mkStats {
  totalChannels : Z;
  totalCategories : Z;
  topCategories : list CategoryCount
}.

(** [categories.reduce((sum, cat) => sum + cat.channels.length, 0)] *)
Definition countChannels (cats : list LiveCategory) : Z :=
  fold_left (fun sum cat => (sum + Z.of_nat (List.length (cat_channels cat)))%Z)
            cats 0%Z.

Definition byCountDescending (a b : CategoryCount) : Z :=
  (count_count b - count_count a)%Z.

(** The [stats] of [handleGetAll]. *)
Definition handleGetAll (cats : list LiveCategory) : Stats :=
  {| totalChannels := countChannels cats;
     totalCategories := Z.of_nat (List.length cats);
     topCategories :=
       slice 0 5
         (sort byCountDescending
            (List.map (fun cat =>
                         {| count_category := cat_name cat;
                            count_count :=
                              Z.of_nat (List.length (cat_channels cat)) |})
                      cats)) |}.

(** [a] has no fewer channels than [b]. *)
Definition noFewer (a b : CategoryCount) : Prop :=
  (count_count b <= count_count a)%Z.

Inductive ChannelReply :=
| ChannelFound (ch : LiveChannel)
| ChannelError (status : Z) (message : jstring).

(** The loop of [handleGetChannel] over the categories. *)
Fixpoint findChannel (channelId : jstring) (cats : list LiveCategory)
  : option LiveChannel :=
  match cats with
  | [] => None
  | category :: cats' =>
      match find (fun ch => eqb (ch_id ch) channelId) (cat_channels category) with
      | Some ch => Some ch
      | None => findChannel channelId cats'
      end
  end.

Definition handleGetChannel (cats : list LiveCategory)
  (channelId : option jstring) : ChannelReply :=
  match channelId with
  | None => ChannelError 400 `"Channel ID required"
  | Some cid =>
      if negb (truthy cid) then ChannelError 400 `"Channel ID required"
      else match findChannel cid cats with
           | Some ch => ChannelFound ch
           | None => ChannelError 404 `"Channel not found"
           end
  end.

Record RefreshStats := mkRefresh {
  refreshed_categories : Z;
  refreshed_channels : Z
}.

Section Platform.

Variable JSON_parse : jstring -> Outcome LiveData.

(** [handleRefreshChannels]: the cache is cleared, then loaded. *)
Definition handleRefreshChannels (now : Z) (file : Outcome jstring) (c : Cache)
  : Outcome RefreshStats * Cache :=
  let (result, c') := getChannelsData JSON_parse now file (clearCache c) in
  (cats <- result ;;
   Returned {| refreshed_categories := Z.of_nat (List.length cats);
               refreshed_channels := countChannels cats |},
   c').

End Platform.

End LiveApiHandlers.

(* ------------------------------------------------------------------ *)
(** * The proxy gateway: the request sent upstream *)

Module GatewayCalls.
Import ProxyGateway.

Definition names (hs : Headers) : list jstring := List.map fst hs.

(** The header names a forwarded request may carry. *)
Definition forwardedNames : list jstring :=
  [`"range"; `"accept"; `"user-agent"; `"origin"; `"referer"].


(** The call of [fetch] in [GET], for the parsed request URL [url] and
    the parsed target URL [target]. *)
Definition getCall (request : Request) (host : jstring) (rest : list jstring)
  (url target : URLParts) : FetchCall :=
  {| fetch_url := targetUrlOf host rest (url_search url);
     fetch_method := GET_;
     fetch_headers :=
       headers_set `"Referer" (url_origin target)
         (headers_set `"Origin" (url_origin target)
            (copy_headers [`"range"; `"accept"; `"user-agent"]
               (req_headers request) [])) |}.

(** The call of [fetch] in [HEAD]. *)
Definition headCall (host : jstring) (rest : list jstring)
  (url target : URLParts) : FetchCall :=
  {| fetch_url := targetUrlOf host rest (url_search url);
     fetch_method := HEAD_;
     fetch_headers :=
       headers_set `"Referer" (url_origin target)
         (headers_set `"Origin" (url_origin target) []) |}.

End GatewayCalls.

(* ------------------------------------------------------------------ *)
(** * Sample gateway traffic *)

Module GatewaySamples.
Import ProxyGateway.


(** A request for a segment of a stream, with a cookie. *)
Definition segmentRequest : Request :=
  {| req_url := `"http://tv.local/api/proxy/a.b/c?d=1";
     req_headers := [(`"Range", `"bytes=0-"); (`"Cookie", `"sid=1")] |}.

Definition requestUrl : URLParts :=
  mkURL `"http://tv.local" `"tv.local" `"/api/proxy/a.b/c" `"?d=1".

Definition targetUrl : URLParts :=
  mkURL `"https://a.b" `"a.b" `"/c" `"?d=1".

Definition unreachable : FetchCall -> Outcome UpstreamResponse :=
  fun _ => Thrown `"ECONNREFUSED".


Definition serving : FetchCall -> Outcome UpstreamResponse :=
  fun _ => Returned {| up_status := 200; up_statusText := `"OK";
                       up_headers := [(`"Content-Type", `"video/mp2t");
                                      (`"Set-Cookie", `"x=1")];
                       up_body := `"data" |}.

End GatewaySamples.

(* ------------------------------------------------------------------ *)
(** * Playback sessions: actions within the candidate list *)

Module SessionActions.
Import LivePlayPage.

(** An action the page offers for a list of [n] candidates: the source
    selector lists the indices below [n] only. *)
Definition offered (n : nat) (a : Action) : Prop :=
  match a with
  | SelectSource i => (i < n)%nat
  | Retry | FatalError _ => True
  end.

End SessionActions.

(* ================================================================== *)
(** * Properties *)

(* ------------------------------------------------------------------ *)
(** ** Strings *)

Section StringFacts.

Lemma eqb_eq (a b : jstring) : eqb a b = true <-> a = b.
Proof.
  revert b; induction a as [|x a IH]; intros [|y b]; simpl;
    try (split; [discriminate | congruence]); try tauto.
  rewrite andb_true_iff, N.eqb_eq, IH.
  split; [intros [-> ->]; reflexivity | intros H; inversion H; auto].
Qed.

Lemma eqb_refl (a : jstring) : eqb a a = true.
Proof. apply eqb_eq; reflexivity. Qed.

Lemma eqb_neq (a b : jstring) : eqb a b = false <-> a <> b.
Proof.
  rewrite <- eqb_eq. destruct (eqb a b); split; congruence.
Qed.

Lemma startsWith_prefix (p s : jstring) :
  startsWith p s = true <-> exists t, s = p ++ t.
Proof.
  revert s; induction p as [|x p IH]; intros s; simpl.
  - split; [intros _; exists s; reflexivity | reflexivity].
  - destruct s as [|y s].
    + split; [discriminate | intros [t H]; discriminate].
    + rewrite andb_true_iff, N.eqb_eq, IH. split.
      * intros [-> [t ->]]. exists t; reflexivity.
      * intros [t H]. inversion H; subst. split; [reflexivity | eauto].
Qed.

Lemma includes_infix (p s : jstring) :
  includes p s = true <-> exists a b, s = a ++ p ++ b.
Proof.
  induction s as [|c s IH].
  - simpl. rewrite orb_false_r, startsWith_prefix. split.
    + intros [t H]. exists [], t. exact H.
    + intros [a [b H]]. destruct a; [exists b; exact H | discriminate].
  - simpl. rewrite orb_true_iff, startsWith_prefix, IH. split.
    + intros [[t H] | [a [b H]]].
      * exists [], t. exact H.
      * exists (c :: a), b. simpl. congruence.
    + intros [[|x a] [b H]].
      * left. exists b. exact H.
      * right. simpl in H. inversion H; subst. eauto.
Qed.

(** A string that includes [a ++ p] includes [p]. *)
Lemma includes_suffix_of_pattern (a p s : jstring) :
  includes (a ++ p) s = true -> includes p s = true.
Proof.
  rewrite !includes_infix. intros [u [v ->]].
  exists (u ++ a), v. rewrite <- !app_assoc. reflexivity.
Qed.

End StringFacts.

(* ------------------------------------------------------------------ *)
(** ** detectQuality *)

Module QualityFacts.
Import LiveChannelParser.

(** With the HD keywords tested first, the tests for [fhd] and for
    [全高清] never decide: each of them contains an HD keyword. *)
Lemma detectQuality_effective (name : jstring) :
  detectQuality name =
    let nameLower := toLowerCase name in
    if includes `"hd" nameLower || includes kw_gaoqing nameLower then HD
    else if includes `"1080p" nameLower then FHD
    else SD.
Proof.
  unfold detectQuality; cbv zeta.
  destruct (includes `"hd" (toLowerCase name)) eqn:Ehd; [reflexivity|].
  destruct (includes kw_gaoqing (toLowerCase name)) eqn:Egq; [reflexivity|].
  cbn [orb].
  destruct (includes `"fhd" (toLowerCase name)) eqn:Ef.
  - apply (includes_suffix_of_pattern `"f" `"hd") in Ef. congruence.
  - destruct (includes kw_quangaoqing (toLowerCase name)) eqn:Eq.
    + apply (includes_suffix_of_pattern [20840%N] kw_gaoqing) in Eq.
      congruence.
    + rewrite orb_false_r. reflexivity.
Qed.

(** C1: [detectQuality] is to return FHD for every name that contains
    "fhd", "1080p" or "全高清", the FHD tier being checked before the
    HD tier.  The code checks the HD tier first: the names "CCTV1 FHD"
    and "CCTV1 全高清" are classified HD, and so is "CCTV1 HD 1080p";
    of the specification's own examples, "CCTV1 高清", "CCTV1 1080p"
    and "CCTV1" come out as HD, FHD and SD. *)
Theorem detectQuality_fhd_names_classified_HD :
  detectQuality `"CCTV1 FHD" = HD
  /\ detectQuality (`"CCTV1 " ++ kw_quangaoqing) = HD
  /\ detectQuality `"CCTV1 HD 1080p" = HD
  /\ detectQuality (`"CCTV1 " ++ kw_gaoqing) = HD
  /\ detectQuality `"CCTV1 1080p" = FHD
  /\ detectQuality `"CCTV1" = SD.
Proof. repeat split; vm_compute; reflexivity. Qed.

End QualityFacts.

(* ------------------------------------------------------------------ *)
(** ** parseM3U *)

Module M3UFacts.
Import LiveChannelParser SpecWords.

Lemma split_nonempty (sep : code_unit) (s : jstring) : split sep s <> [].
Proof.
  destruct s as [|c s]; simpl; [discriminate|].
  destruct (N.eqb c sep); [discriminate|].
  destruct (split sep s); discriminate.
Qed.

Lemma join_split (sep : code_unit) (s : jstring) : join [sep] (split sep s) = s.
Proof.
  induction s as [|c s IH]; [reflexivity|].
  simpl. destruct (N.eqb c sep) eqn:E.
  - apply N.eqb_eq in E; subst c.
    destruct (split sep s) as [|w ws] eqn:S; [now apply split_nonempty in S|].
    simpl in *. now rewrite IH.
  - destruct (split sep s) as [|w ws] eqn:S; [now apply split_nonempty in S|].
    destruct ws; simpl in *; now rewrite <- IH.
Qed.

(** [const [, ...rest] = s.split(sep); rest.join(sep)] is the text after
    the first separator. *)
Lemma join_tl_split (sep : code_unit) (s : jstring) :
  join [sep] (tl (split sep s)) = afterFirst sep s.
Proof.
  induction s as [|c s IH]; [reflexivity|].
  simpl. destruct (N.eqb c sep).
  - simpl. apply join_split.
  - destruct (split sep s) as [|w ws] eqn:S; [now apply split_nonempty in S|].
    exact IH.
Qed.

Lemma extinf_title_first_comma (line : jstring) :
  extinf_title (substring_from 8 line) = titleAfterFirstComma line.
Proof.
  unfold extinf_title, titleAfterFirstComma, extinfPayload.
  change (`",") with [44%N]. now rewrite join_tl_split.
Qed.

Lemma startsWith_app_l (a b s : jstring) :
  startsWith (a ++ b) s = true -> startsWith a s = true.
Proof.
  rewrite !startsWith_prefix. intros [t ->].
  exists (b ++ t). now rewrite app_assoc.
Qed.

Lemma extinf_is_comment (l : jstring) :
  startsWith `"#EXTINF:" l = true -> startsWith `"#" l = true.
Proof. apply (startsWith_app_l `"#" `"EXTINF:"). Qed.

Lemma extinf_not_header (l : jstring) :
  startsWith `"#EXTINF:" l = true -> startsWith `"#EXTM3U" l = false.
Proof.
  intros H. destruct (startsWith `"#EXTM3U" l) eqn:E; [|reflexivity].
  apply (startsWith_app_l `"#EXTI" `"NF:") in H.
  apply (startsWith_app_l `"#EXTM" `"3U") in E.
  apply startsWith_prefix in H, E. destruct H as [t ->], E as [u E].
  discriminate.
Qed.

(** A comment line directly after an [#EXTINF] line is never taken as
    its URL, and a direct [Name,URL] line is not a comment: the loop
    treats the lines before a comment line independently of what
    follows. *)
Lemma parseM3U_loop_app (pre rest : list jstring) :
  startsWith `"#" (hd `"#" rest) = true ->
  parseM3U_loop (pre ++ rest) = parseM3U_loop pre ++ parseM3U_loop rest.
Proof.
  intros Hrest.
  remember (List.length pre) as k eqn:Hk.
  revert pre Hk. induction k as [k IH] using lt_wf_ind. intros pre Hk.
  destruct pre as [|line pre']; [reflexivity|].
  assert (IH1 : parseM3U_loop (pre' ++ rest)
                = parseM3U_loop pre' ++ parseM3U_loop rest).
  { apply (IH (List.length pre')); [subst k; simpl; lia | reflexivity]. }
  cbn [app parseM3U_loop].
  destruct (startsWith `"#EXTM3U" line || negb (truthy line)); [exact IH1|].
  destruct (startsWith `"#EXTINF:" line).
  - destruct pre' as [|n pre''].
    + cbn [app]. destruct rest as [|r rest']; [reflexivity|].
      cbn [hd] in Hrest. rewrite Hrest. now rewrite andb_false_r.
    + cbn [app].
      destruct (truthy n && negb (startsWith `"#" n)); [|exact IH1].
      cbn [app]. f_equal.
      apply (IH (List.length pre'')); [subst k; simpl; lia | reflexivity].
  - destruct (includes `",http" line); [|exact IH1].
    destruct (truthy (hd [] (split 44%N line))
              && truthy (join `"," (tl (split 44%N line)))); [|exact IH1].
    cbn [app]. now f_equal.
Qed.

Lemma lines_of_truthy (content line : jstring) :
  In line (lines_of content) -> truthy line = true.
Proof. unfold lines_of. rewrite filter_In. tauto. Qed.

(** C2, the claim as worded fails: the title is not what follows the
    last comma.  For the two-line input [#EXTINF:-1,A,B] / [http://a]
    the only item is named "A,B", while the text after the last comma
    of the payload is "B". *)
Lemma parseM3U_title_is_not_after_last_comma :
  let extinf := `"#EXTINF:-1,A,B" in
  let content := extinf ++ LF ++ `"http://a" in
  parseM3U content = [mkItem `"A,B" `"http://a"]
  /\ titleAfterLastComma extinf = `"B"
  /\ parseM3U content <> [mkItem (titleAfterLastComma extinf) `"http://a"].
Proof.
  cbv zeta. split; [vm_compute; reflexivity|].
  split; [vm_compute; reflexivity|].
  vm_compute. discriminate.
Qed.

(** C2, amended: for every input text, whenever the trimmed non-empty
    lines contain a line [l] starting with "#EXTINF:" immediately
    followed by a line [n] that does not start with "#", the output is
    the items of the lines before [l], then exactly one item whose name
    is the trimmed text after the FIRST comma of the payload of [l] and
    whose URL is [n], then the items of the lines after [n]; and the
    input "#EXTM3U\n#EXTINF:-1,Channel A\nhttp://a\n" yields exactly the
    item named "Channel A" with URL "http://a". *)
Theorem parseM3U_extinf_pair
  (content : jstring) (pre : list jstring) (l n : jstring)
  (post : list jstring)
  (Hlines : lines_of content = pre ++ l :: n :: post)
  (Hinf : startsWith `"#EXTINF:" l = true)
  (Hurl : startsWith `"#" n = false) :
  parseM3U content =
    parseM3U_loop pre
    ++ mkItem (titleAfterFirstComma l) n :: parseM3U_loop post
  /\ parseM3U (`"#EXTM3U" ++ LF ++ `"#EXTINF:-1,Channel A" ++ LF
               ++ `"http://a" ++ LF)
     = [mkItem `"Channel A" `"http://a"].
Proof.
  split; [|vm_compute; reflexivity].
  assert (Hn : truthy n = true).
  { apply (lines_of_truthy content). rewrite Hlines.
    apply in_or_app; right; right; left; reflexivity. }
  assert (Hl : truthy l = true).
  { apply (lines_of_truthy content). rewrite Hlines.
    apply in_or_app; right; left; reflexivity. }
  unfold parseM3U. rewrite Hlines.
  rewrite parseM3U_loop_app by (cbn [hd]; now apply extinf_is_comment).
  f_equal. cbn [parseM3U_loop].
  rewrite (extinf_not_header _ Hinf), Hl, Hinf, Hn, Hurl.
  cbn [negb orb andb]. now rewrite extinf_title_first_comma.
Qed.

(** An [#EXTINF] line with no URL after it (a comment line or the end
    of the file follows) contributes no item. *)
Lemma parseM3U_extinf_unpaired (pre : list jstring) (l : jstring)
  (post : list jstring) :
  startsWith `"#EXTINF:" l = true ->
  startsWith `"#" (hd `"#" post) = true ->
  parseM3U_loop (pre ++ l :: post) = parseM3U_loop pre ++ parseM3U_loop post.
Proof.
  intros Hinf Hpost.
  rewrite parseM3U_loop_app by (cbn [hd]; now apply extinf_is_comment).
  f_equal. cbn [parseM3U_loop].
  rewrite (extinf_not_header _ Hinf), Hinf.
  assert (Hl : truthy l = true).
  { apply startsWith_prefix in Hinf. destruct Hinf as [t ->]. reflexivity. }
  rewrite Hl. cbn [negb orb]. destruct post as [|n post']; [reflexivity|].
  cbn [hd] in Hpost. now rewrite Hpost, andb_false_r.
Qed.

(** A title with a comma, between a header line and a direct line. *)
Lemma parseM3U_extinf_pair_example :
  parseM3U (`"#EXTM3U" ++ LF ++ `"#EXTINF:-1,Channel A, East" ++ LF
            ++ `"http://a" ++ LF ++ `"Direct,http://b")
  = [mkItem `"Channel A, East" `"http://a"; mkItem `"Direct" `"http://b"].
Proof.
  exact (proj1 (parseM3U_extinf_pair
                  (`"#EXTM3U" ++ LF ++ `"#EXTINF:-1,Channel A, East" ++ LF
                   ++ `"http://a" ++ LF ++ `"Direct,http://b")
                  [`"#EXTM3U"] `"#EXTINF:-1,Channel A, East" `"http://a"
                  [`"Direct,http://b"]
                  eq_refl eq_refl eq_refl)).
Defined.

End M3UFacts.

(* ------------------------------------------------------------------ *)
(** ** Sorting *)

Section SortFacts.

Variable A : Type.
Variable cmp : A -> A -> Z.

Lemma insert_Permutation (x : A) (l : list A) :
  Permutation (insert cmp x l) (x :: l).
Proof.
  induction l as [|y l IH]; simpl; [apply Permutation_refl|].
  destruct (cmp x y <=? 0)%Z; [apply Permutation_refl|].
  eapply perm_trans; [apply perm_skip, IH | apply perm_swap].
Qed.

Lemma sort_Permutation (l : list A) : Permutation (sort cmp l) l.
Proof.
  induction l as [|x l IH]; simpl; [constructor|].
  eapply perm_trans; [apply insert_Permutation | now apply perm_skip].
Qed.

Lemma sort_length (l : list A) : List.length (sort cmp l) = List.length l.
Proof. apply Permutation_length, sort_Permutation. Qed.

Lemma sort_In (x : A) (l : list A) : In x (sort cmp l) <-> In x l.
Proof.
  split; apply Permutation_in;
    [apply sort_Permutation | apply Permutation_sym, sort_Permutation].
Qed.

Lemma filter_Permutation (f : A -> bool) (l l' : list A) :
  Permutation l l' -> Permutation (filter f l) (filter f l').
Proof.
  induction 1 as [|x l l' _ IH|x y l|l l' l'' _ IH1 _ IH2]; simpl.
  - constructor.
  - destruct (f x); [now constructor | exact IH].
  - destruct (f x), (f y); try apply Permutation_refl. apply perm_swap.
  - eapply perm_trans; eassumption.
Qed.

(** Sorting does not disturb a selection that has at most one element. *)
Lemma filter_sort_small (f : A -> bool) (l : list A) :
  (List.length (filter f l) <= 1)%nat ->
  filter f (sort cmp l) = filter f l.
Proof.
  intros Hlen.
  pose proof (filter_Permutation f (Permutation_sym (sort_Permutation l))) as P.
  destruct (filter f l) as [|a [|b r]].
  - now apply Permutation_nil in P.
  - now apply Permutation_length_1_inv in P.
  - simpl in Hlen. lia.
Qed.

End SortFacts.

(* ------------------------------------------------------------------ *)
(** ** parseChineseTVFormat *)

Module CatalogFacts.
Import LiveChannelParser CatalogEntries.

(** *** The category map *)

Lemma map_get_set_same (k : jstring) (v : list LiveChannel) (m : ChannelMap) :
  map_get k (map_set k v m) = Some v.
Proof.
  induction m as [|[k' v'] m IH]; simpl.
  - now rewrite eqb_refl.
  - destruct (eqb k' k) eqn:E; simpl; now rewrite E.
Qed.

Lemma map_get_set_other (k k' : jstring) (v : list LiveChannel) (m : ChannelMap) :
  k' <> k -> map_get k' (map_set k v m) = map_get k' m.
Proof.
  intros Hne. induction m as [|[k0 v0] m IH]; simpl.
  - apply eqb_neq in Hne. destruct (eqb k k') eqn:E; [|reflexivity].
    apply eqb_eq in E. apply eqb_neq in Hne. congruence.
  - destruct (eqb k0 k) eqn:E; simpl.
    + apply eqb_eq in E; subst k0.
      destruct (eqb k k') eqn:E'; [|reflexivity].
      apply eqb_eq in E'. congruence.
    + now rewrite IH.
Qed.

Lemma map_set_keys (k k' : jstring) (v : list LiveChannel) (m : ChannelMap) :
  In k' (List.map fst (map_set k v m)) <-> k' = k \/ In k' (List.map fst m).
Proof.
  induction m as [|[k0 v0] m IH]; simpl.
  - intuition congruence.
  - destruct (eqb k0 k) eqn:E; simpl.
    + apply eqb_eq in E; subst k0. intuition congruence.
    + rewrite IH. intuition.
Qed.

Lemma map_set_NoDup (k : jstring) (v : list LiveChannel) (m : ChannelMap) :
  NoDup (List.map fst m) -> NoDup (List.map fst (map_set k v m)).
Proof.
  induction m as [|[k0 v0] m IH]; simpl; intros H.
  - constructor; [intros [] | constructor].
  - inversion H as [|? ? Hnin Hnd]; subst.
    destruct (eqb k0 k) eqn:E; simpl.
    + now constructor.
    + constructor; [|now apply IH].
      rewrite map_set_keys. intros [->|Hin]; [|contradiction].
      now rewrite eqb_refl in E.
Qed.

Lemma map_get_In (k : jstring) (v : list LiveChannel) (m : ChannelMap) :
  NoDup (List.map fst m) -> In (k, v) m -> map_get k m = Some v.
Proof.
  induction m as [|[k0 v0] m IH]; simpl; intros Hnd Hin; [contradiction|].
  inversion Hnd as [|? ? Hnin Hnd']; subst.
  destruct Hin as [Heq|Hin].
  - inversion Heq; subst. now rewrite eqb_refl.
  - destruct (eqb k0 k) eqn:E; [|now apply IH].
    apply eqb_eq in E; subst k0. exfalso. apply Hnin.
    change k with (fst (k, v)). now apply in_map.
Qed.

Lemma channelsOf_set_same (k : jstring) (v : list LiveChannel) (m : ChannelMap) :
  channelsOf k (map_set k v m) = v.
Proof. unfold channelsOf. now rewrite map_get_set_same. Qed.

Lemma channelsOf_set_other (k k' : jstring) (v : list LiveChannel)
  (m : ChannelMap) :
  k' <> k -> channelsOf k' (map_set k v m) = channelsOf k' m.
Proof. intros H. unfold channelsOf. now rewrite map_get_set_other. Qed.

(** *** Distinct URLs in encounter order *)

Lemma existsb_eqb_In (u : jstring) (l : list jstring) :
  existsb (eqb u) l = true <-> In u l.
Proof.
  rewrite existsb_exists. split.
  - intros [x [Hin E]]. apply eqb_eq in E. now subst.
  - intros Hin. exists u. split; [assumption | apply eqb_refl].
Qed.

Lemma dedupe_snoc (us : list jstring) (u : jstring) :
  dedupe (us ++ [u]) = pushNew (dedupe us) u.
Proof. unfold dedupe. now rewrite fold_left_app. Qed.

Lemma pushNew_NoDup (acc : list jstring) (u : jstring) :
  NoDup acc -> NoDup (pushNew acc u).
Proof.
  intros H. unfold pushNew. destruct (existsb (eqb u) acc) eqn:E; [assumption|].
  apply NoDup_rev in H. rewrite <- (rev_involutive (acc ++ [u])).
  apply NoDup_rev. rewrite rev_app_distr. simpl. constructor; [|assumption].
  rewrite <- in_rev, <- existsb_eqb_In. congruence.
Qed.

Lemma pushNew_In (acc : list jstring) (u x : jstring) :
  In x (pushNew acc u) <-> In x acc \/ x = u.
Proof.
  unfold pushNew. destruct (existsb (eqb u) acc) eqn:E.
  - apply existsb_eqb_In in E. intuition congruence.
  - rewrite in_app_iff. simpl. intuition.
Qed.

Lemma dedupe_NoDup (us : list jstring) : NoDup (dedupe us).
Proof.
  induction us as [|u us IH] using rev_ind; [constructor|].
  rewrite dedupe_snoc. now apply pushNew_NoDup.
Qed.

Lemma dedupe_In (us : list jstring) (x : jstring) :
  In x (dedupe us) <-> In x us.
Proof.
  induction us as [|u us IH] using rev_ind; [reflexivity|].
  rewrite dedupe_snoc, pushNew_In, in_app_iff, IH. simpl. intuition.
Qed.

(** [addUrl] on a channel holding the distinct URLs seen so far. *)
Lemma addUrl_dedupe (base : LiveChannel) (us : list jstring) (u : jstring) :
  addUrl u (set_urls base (dedupe us)) = set_urls base (dedupe (us ++ [u])).
Proof.
  rewrite dedupe_snoc. unfold addUrl, pushNew. cbn [ch_urls set_urls].
  now destruct (existsb (eqb u) (dedupe us)).
Qed.

(** *** One line of the catalog *)

Lemma named_addUrl (n u : jstring) (ch : LiveChannel) :
  named n (addUrl u ch) = named n ch.
Proof. unfold addUrl. now destruct (existsb (eqb u) (ch_urls ch)). Qed.

Lemma find_named_None (n : jstring) (chans : list LiveChannel) :
  find (fun ch => eqb (ch_name ch) n) chans = None ->
  filter (named n) chans = [].
Proof.
  induction chans as [|ch chans IH]; simpl; [reflexivity|].
  unfold named at 1. destruct (eqb (ch_name ch) n); [discriminate | exact IH].
Qed.

Lemma find_named_Some (n : jstring) (chans : list LiveChannel) (x : LiveChannel) :
  find (fun ch => eqb (ch_name ch) n) chans = Some x ->
  exists r, filter (named n) chans = x :: r.
Proof.
  induction chans as [|ch chans IH]; simpl; [discriminate|].
  unfold named at 1. destruct (eqb (ch_name ch) n).
  - intros H; inversion H; subst. eauto.
  - exact IH.
Qed.

Lemma filter_updateExisting_same (n u : jstring) (chans : list LiveChannel) :
  filter (named n) (updateExisting n u chans) =
    match filter (named n) chans with
    | [] => []
    | x :: r => addUrl u x :: r
    end.
Proof.
  induction chans as [|ch chans IH]; [reflexivity|].
  cbn [updateExisting].
  destruct (eqb (ch_name ch) n) eqn:E.
  - cbn [filter]. rewrite named_addUrl.
    change (named n ch) with (eqb (ch_name ch) n). now rewrite E.
  - cbn [filter]. change (named n ch) with (eqb (ch_name ch) n).
    now rewrite E.
Qed.

Lemma filter_updateExisting_other (n name u : jstring)
  (chans : list LiveChannel) :
  name <> n ->
  filter (named n) (updateExisting name u chans) = filter (named n) chans.
Proof.
  intros Hne. induction chans as [|ch chans IH]; [reflexivity|].
  cbn [updateExisting].
  destruct (eqb (ch_name ch) name) eqn:E.
  - cbn [filter]. rewrite named_addUrl.
    apply eqb_eq in E. apply eqb_neq in Hne.
    change (named n ch) with (eqb (ch_name ch) n). now rewrite E, Hne.
  - cbn [filter]. now rewrite IH.
Qed.

Lemma urlsSeen_snoc (c n : jstring) (es : list Entry) (e : Entry) :
  urlsSeen c n (es ++ [e]) =
    urlsSeen c n es ++ (if isFor c n e then [entry_url e] else []).
Proof.
  unfold urlsSeen. rewrite filter_app, map_app. simpl.
  now destruct (isFor c n e).
Qed.

Lemma Holds_initial : Holds [] [].
Proof. intros c n. reflexivity. Qed.

Lemma Holds_genre (m : ChannelMap) (es : list Entry) (cur : jstring) :
  Holds m es ->
  Holds (if map_has cur m then m else map_set cur [] m) es.
Proof.
  intros H c n. unfold map_has.
  destruct (map_get cur m) as [chans|] eqn:G; [apply H|].
  rewrite <- H. f_equal.
  destruct (eqb cur c) eqn:E.
  - apply eqb_eq in E; subst c. rewrite channelsOf_set_same.
    unfold channelsOf. now rewrite G.
  - apply eqb_neq in E. apply channelsOf_set_other. congruence.
Qed.

Lemma Holds_channel (m : ChannelMap) (es : list Entry) (cur name url : jstring) :
  Holds m es ->
  Holds
    (map_set cur
       match find (fun ch => eqb (ch_name ch) name) (channelsOf cur m) with
       | Some _ => updateExisting name url (channelsOf cur m)
       | None => channelsOf cur m ++ [newChannel cur name url]
       end m)
    (es ++ [mkEntry cur name url]).
Proof.
  intros H c n. rewrite urlsSeen_snoc. unfold isFor. cbn [entry_category entry_name entry_url].
  destruct (eqb cur c) eqn:Ec.
  2:{ apply eqb_neq in Ec. rewrite channelsOf_set_other by congruence.
      cbn [andb]. rewrite app_nil_r. apply H. }
  apply eqb_eq in Ec; subst c. rewrite channelsOf_set_same. cbn [andb].
  specialize (H cur) as Hcur.
  destruct (eqb name n) eqn:En.
  - apply eqb_eq in En; subst n. specialize (Hcur name).
    destruct (find (fun ch => eqb (ch_name ch) name) (channelsOf cur m))
      as [x|] eqn:F.
    + apply find_named_Some in F. destruct F as [r F].
      rewrite filter_updateExisting_same, F.
      rewrite F in Hcur.
      destruct (urlsSeen cur name es) as [|first rest] eqn:U;
        [discriminate|].
      cbn [expectedChannels] in Hcur. inversion Hcur; subst x r.
      rewrite addUrl_dedupe. reflexivity.
    + apply find_named_None in F. rewrite F in Hcur.
      destruct (urlsSeen cur name es) as [|first rest] eqn:U;
        [|discriminate].
      rewrite filter_app, F. cbn [filter app].
      change (named name (newChannel cur name url)) with (eqb name name).
      rewrite eqb_refl. reflexivity.
  - rewrite app_nil_r, <- (Hcur n). apply eqb_neq in En.
    destruct (find (fun ch => eqb (ch_name ch) name) (channelsOf cur m)).
    + now apply filter_updateExisting_other.
    + rewrite filter_app. cbn [filter].
      change (named n (newChannel cur name url)) with (eqb name n).
      apply eqb_neq in En. rewrite En. apply app_nil_r.
Qed.

Lemma processLine_Holds (st : ParseState) (es : list Entry) (line : jstring) :
  Holds (categories st) es ->
  Holds (categories (processLine st line))
        (es ++ entriesFrom (currentCategory st) [line])
  /\ forall rest,
       entriesFrom (currentCategory st) (line :: rest) =
       entriesFrom (currentCategory st) [line]
       ++ entriesFrom (currentCategory (processLine st line)) rest.
Proof.
  intros H. unfold processLine. cbn [entriesFrom].
  destruct (includes `",#genre#" line).
  - cbn [categories currentCategory]. rewrite app_nil_r.
    split; [now apply Holds_genre | reflexivity].
  - destruct (channelLine line) as [[name url]|].
    + cbn [categories currentCategory]. split; [|reflexivity].
      apply (Holds_channel _ _ _ H).
    + rewrite app_nil_r. split; [assumption | reflexivity].
Qed.

Lemma processLines_Holds (lines : list jstring) (st : ParseState)
  (es : list Entry) :
  Holds (categories st) es ->
  Holds (categories (fold_left processLine lines st))
        (es ++ entriesFrom (currentCategory st) lines).
Proof.
  revert st es. induction lines as [|line lines IH]; intros st es H.
  - simpl. now rewrite app_nil_r.
  - destruct (processLine_Holds st line H) as [H1 H2].
    cbn [fold_left]. rewrite H2, app_assoc. now apply IH.
Qed.

Lemma processLine_keys (st : ParseState) (line : jstring) :
  NoDup (List.map fst (categories st)) ->
  NoDup (List.map fst (categories (processLine st line))).
Proof.
  intros H. unfold processLine.
  destruct (includes `",#genre#" line).
  - cbn [categories]. destruct (map_has _ _); [assumption|].
    now apply map_set_NoDup.
  - destruct (channelLine line) as [[name url]|]; [|assumption].
    cbn [categories]. now apply map_set_NoDup.
Qed.

Lemma processLines_keys (lines : list jstring) (st : ParseState) :
  NoDup (List.map fst (categories st)) ->
  NoDup (List.map fst (categories (fold_left processLine lines st))).
Proof.
  revert st. induction lines as [|line lines IH]; intros st H; [assumption|].
  cbn [fold_left]. apply IH. now apply processLine_keys.
Qed.

(** *** The categories returned *)

Lemma toCategories_In (localeCompare : jstring -> jstring -> Z)
  (m : ChannelMap) (k : Z) (cat : LiveCategory) :
  In cat (toCategories localeCompare m k) ->
  exists chans,
    In (cat_name cat, chans) m
    /\ cat_channels cat = sort (byName localeCompare) chans.
Proof.
  revert k. induction m as [|[name chans] m IH]; intros k; simpl;
    [contradiction|].
  destruct (0 <? Z.of_nat (List.length chans))%Z.
  - intros [<-|Hin]; [exists chans; split; [now left | reflexivity]|].
    destruct (IH _ Hin) as [c [H1 H2]]. exists c. split; [now right | assumption].
  - intros Hin. destruct (IH _ Hin) as [c [H1 H2]].
    exists c. split; [now right | assumption].
Qed.

Lemma expectedChannels_length (c n : jstring) (us : list jstring) :
  (List.length (expectedChannels c n us) <= 1)%nat.
Proof. destruct us; simpl; lia. Qed.

Lemma returned_category (localeCompare : jstring -> jstring -> Z)
  (content : jstring) (cat : LiveCategory) (name : jstring) :
  In cat (parseChineseTVFormat localeCompare content) ->
  filter (named name) (cat_channels cat) =
    expectedChannels (cat_name cat) name
      (urlsSeen (cat_name cat) name (entriesOf content)).
Proof.
  unfold parseChineseTVFormat. rewrite sort_In. intros Hin.
  apply toCategories_In in Hin. destruct Hin as [chans [Hin Hsorted]].
  pose proof (processLines_Holds (lines_of content) initialState
                (es := []) Holds_initial) as H.
  pose proof (processLines_keys (lines_of content) initialState
                (NoDup_nil _)) as K.
  cbn [app] in H. specialize (H (cat_name cat) name).
  unfold channelsOf in H. rewrite (@map_get_In _ _ _ K Hin) in H.
  rewrite Hsorted, filter_sort_small; [exact H|].
  rewrite H. apply expectedChannels_length.
Qed.

(** C5: in every category [parseChineseTVFormat] returns, the channels
    under a name are exactly what the channel lines of that category
    and name determine: no channel when there is no such line, and
    otherwise ONE channel, created from the first line (its format is
    detected from the first URL, its quality from the name), whose URL
    list is the URLs of those lines in encounter order, each kept the
    first time it is seen.  So the list has no duplicate and holds every
    URL given.  For the sample with two genre markers, the second
    category holds one channel with the two distinct URLs in order. *)
Theorem parseChineseTVFormat_repeated_channel
  (localeCompare : jstring -> jstring -> Z) (content : jstring)
  (cat : LiveCategory)
  (Hcat : In cat (parseChineseTVFormat localeCompare content)) :
  (forall name,
     filter (named name) (cat_channels cat) =
       expectedChannels (cat_name cat) name
         (urlsSeen (cat_name cat) name (entriesOf content)))
  /\ (forall ch,
        In ch (cat_channels cat) ->
        exists first rest,
          urlsSeen (cat_name cat) (ch_name ch) (entriesOf content)
            = first :: rest
          /\ ch_urls ch = dedupe (first :: rest)
          /\ NoDup (ch_urls ch)
          /\ (forall u, In u (ch_urls ch) <-> In u (first :: rest))
          /\ ch_format ch = Some (detectStreamFormat first)
          /\ ch_quality ch = Some (detectQuality (ch_name ch)))
  /\ parseChineseTVFormat localeCompare Samples.twoGenres
     = [Samples.news; Samples.sports].
Proof.
  split; [intros name; now apply (@returned_category localeCompare)|].
  split; [|vm_compute; reflexivity].
  intros ch Hch.
  assert (Hsel : In ch (filter (named (ch_name ch)) (cat_channels cat))).
  { apply filter_In. split; [assumption | apply eqb_refl]. }
  rewrite (@returned_category localeCompare content cat (ch_name ch) Hcat)
    in Hsel.
  destruct (urlsSeen (cat_name cat) (ch_name ch) (entriesOf content))
    as [|first rest]; [contradiction|].
  destruct Hsel as [Heq|[]].
  exists first, rest. split; [reflexivity|].
  rewrite <- Heq. cbn [ch_urls ch_format ch_quality ch_name set_urls newChannel].
  split; [reflexivity|].
  split; [apply dedupe_NoDup|].
  split; [intros u; apply dedupe_In|].
  split; reflexivity.
Qed.

(** The sample catalog: the channels named "CCTV5 HD" of its second
    category. *)
Lemma parseChineseTVFormat_repeated_channel_sample :
  filter (named `"CCTV5 HD") (cat_channels Samples.sports) = [Samples.cctv5].
Proof.
  assert (Hin : In Samples.sports
                  (parseChineseTVFormat Samples.flatCollation
                     Samples.twoGenres)).
  { vm_compute. right; left; reflexivity. }
  rewrite (proj1 (parseChineseTVFormat_repeated_channel
                    Samples.flatCollation Samples.twoGenres Samples.sports
                    Hin) `"CCTV5 HD").
  vm_compute. reflexivity.
Defined.

End CatalogFacts.

(* ------------------------------------------------------------------ *)
(** ** The catalog cache and the channel query *)

Module LiveApiFacts.
Import LiveApi.

(** The reload fails exactly when the file cannot be read, its text is
    not JSON, or the document is [null]. *)
Lemma loadCategories_failure (JSON_parse : jstring -> Outcome LiveData)
  (file : Outcome jstring) (e : jstring) :
  loadCategories JSON_parse file = Thrown e <->
  file = Thrown e
  \/ (exists content, file = Returned content
        /\ (JSON_parse content = Thrown e
            \/ JSON_parse content = Returned JsonNull
               /\ e = `"Cannot read properties of null")).
Proof.
  unfold loadCategories, bind. destruct file as [content|e0].
  - destruct (JSON_parse content) as [[|[cats|]]|e1] eqn:P.
    + split.
      * intros H; inversion H; subst. right. exists content. auto.
      * intros [H|[c [Hc [H|[H He]]]]];
          [discriminate | inversion Hc; subst; congruence | now subst].
    + split; [discriminate|].
      intros [H|[c [Hc [H|[H _]]]]]; [discriminate|..];
        inversion Hc; subst; congruence.
    + split; [discriminate|].
      intros [H|[c [Hc [H|[H _]]]]]; [discriminate|..];
        inversion Hc; subst; congruence.
    + split.
      * intros H; inversion H; subst. right. exists content. auto.
      * intros [H|[c [Hc [H|[H _]]]]]; [discriminate|..];
          inversion Hc; subst; congruence.
  - split.
    + intros H; inversion H; subst. now left.
    + intros [H|[c [Hc _]]]; [inversion H; subst; reflexivity | discriminate].
Qed.

(** C7: when the reload from the file fails, for whatever reason,
    [getChannelsData] returns the snapshot held in the cache if there is
    one and the empty list otherwise, and leaves the cache as it was;
    and no call, whatever the file holds, ends in an exception. *)
Theorem getChannelsData_reload_failure
  (JSON_parse : jstring -> Outcome LiveData) (now : Z)
  (file : Outcome jstring) (c : Cache) (e : jstring)
  (Hfail : loadCategories JSON_parse file = Thrown e) :
  getChannelsData JSON_parse now file c =
    (Returned match channelsCache c with
              | Some cached => cached
              | None => []
              end, c)
  /\ forall file', exists cats c',
       getChannelsData JSON_parse now file' c = (Returned cats, c').
Proof.
  split.
  - unfold getChannelsData. rewrite Hfail.
    destruct (channelsCache c) as [cached|]; [|reflexivity].
    now destruct (now - lastCacheUpdate c <? CACHE_TTL)%Z.
  - intros file'. unfold getChannelsData.
    destruct (channelsCache c) as [cached|].
    + destruct (now - lastCacheUpdate c <? CACHE_TTL)%Z; [eauto|].
      destruct (loadCategories JSON_parse file'); cbn; eauto.
    + destruct (loadCategories JSON_parse file'); cbn; eauto.
Qed.

(** A stale cache and a file that is not JSON: the previous snapshot. *)
Lemma getChannelsData_reload_failure_stale :
  getChannelsData (fun _ => Thrown `"SyntaxError") 1000000
    (Returned `"{") {| channelsCache := Some [Samples.news];
                       lastCacheUpdate := 0 |}
  = (Returned [Samples.news],
     {| channelsCache := Some [Samples.news]; lastCacheUpdate := 0 |}).
Proof.
  exact (proj1 (getChannelsData_reload_failure
                  (fun _ => Thrown `"SyntaxError") 1000000
                  (Returned `"{")
                  {| channelsCache := Some [Samples.news];
                     lastCacheUpdate := 0 |}
                  (e := `"SyntaxError") eq_refl)).
Defined.

(** *** Pagination *)

Lemma slice_window (A : Type) (start stop : Z) (l : list A) :
  (0 <= start <= stop)%Z ->
  slice start stop l =
    firstn (Z.to_nat (stop - start)) (skipn (Z.to_nat start) l).
Proof.
  intros H. unfold slice, relative_index.
  destruct (start <? 0)%Z eqn:E1; [lia|].
  destruct (stop <? 0)%Z eqn:E2; [lia|].
  set (len := Z.of_nat (List.length l)).
  destruct (Z.le_gt_cases len start) as [Hout|Hin].
  - rewrite !skipn_all2 by lia. now rewrite !firstn_nil.
  - replace (Z.min start len) with start by lia.
    destruct (Z.le_gt_cases len stop) as [Hs|Hs].
    + rewrite !firstn_all2; [reflexivity | |]; rewrite length_skipn; lia.
    + f_equal. lia.
Qed.

Lemma ceil_div_positive (a b : Z) :
  (0 < b)%Z ->
  exists k, ceil_div a b = Finite k /\ ((k - 1) * b < a <= k * b)%Z.
Proof.
  intros Hb. unfold ceil_div.
  destruct (b =? 0)%Z eqn:E; [lia|].
  exists (- (- a / b))%Z. split; [reflexivity|].
  pose proof (Z.div_mod (- a) b ltac:(lia)) as Hdm.
  pose proof (Z.mod_pos_bound (- a) b Hb) as Hm.
  nia.
Qed.

(** C10: for a page [p >= 1] and a limit [L >= 1] the channels returned
    are the contiguous slice of the sorted channel list from index
    [(p-1)*L] up to, and excluding, [p*L]: element [j] of the answer is
    element [(p-1)*L + j] of the sorted list, there are at most [L] of
    them, and none when [(p-1)*L] is past the end; [total] is the length
    of the sorted list and [pages] is the ceiling of [total / L], the
    least [k] with [total <= k*L]. *)
Theorem handleGetChannels_pagination
  (localeCompare : jstring -> jstring -> Z) (cats : list LiveCategory)
  (categoryId : option jstring) (p L : Z) (sortKey : jstring)
  (Hp : (1 <= p)%Z) (HL : (1 <= L)%Z) :
  let sorted := sortedChannels localeCompare cats categoryId sortKey in
  let answer := handleGetChannels localeCompare cats categoryId p L sortKey in
  let total := Z.of_nat (List.length sorted) in
  channels answer
    = firstn (Z.to_nat L) (skipn (Z.to_nat ((p - 1) * L)) sorted)
  /\ (forall j, (j < Z.to_nat L)%nat ->
        nth_error (channels answer) j
          = nth_error sorted (Z.to_nat ((p - 1) * L) + j))
  /\ (Z.of_nat (List.length (channels answer)) <= L)%Z
  /\ (Z.of_nat (List.length (channels answer))
        = Z.max 0 (Z.min L (total - (p - 1) * L)))%Z
  /\ ((total <= (p - 1) * L)%Z -> channels answer = [])
  /\ pg_page (pagination answer) = p
  /\ pg_limit (pagination answer) = L
  /\ pg_total (pagination answer) = total
  /\ exists k, pg_pages (pagination answer) = Finite k
               /\ ((k - 1) * L < total <= k * L)%Z.
Proof.
  intros sorted answer total.
  assert (Hch : channels answer
                = firstn (Z.to_nat L) (skipn (Z.to_nat ((p - 1) * L)) sorted)).
  { unfold answer, handleGetChannels. cbn [channels].
    fold sorted. rewrite slice_window by nia.
    do 2 f_equal. lia. }
  split; [exact Hch|].
  split.
  { intros j Hj. rewrite Hch, nth_error_firstn.
    destruct (Nat.ltb_spec j (Z.to_nat L)); [|lia].
    apply nth_error_skipn. }
  split.
  { rewrite Hch. pose proof (firstn_le_length (Z.to_nat L)
      (skipn (Z.to_nat ((p - 1) * L)) sorted)). lia. }
  split.
  { rewrite Hch, length_firstn, length_skipn. unfold total. nia. }
  split.
  { intros Hpast. rewrite Hch, skipn_all2; [apply firstn_nil|].
    unfold total in Hpast. lia. }
  repeat (split; [reflexivity|]).
  unfold answer, handleGetChannels. cbn [pagination pg_pages].
  apply ceil_div_positive. lia.
Qed.

(** The second page of one channel per page, best quality first. *)
Lemma handleGetChannels_pagination_second_page :
  channels (handleGetChannels Samples.flatCollation
              [Samples.news; Samples.sports] None 2 1 `"quality")
  = [Samples.cctv1].
Proof.
  rewrite (proj1 (@handleGetChannels_pagination Samples.flatCollation
                    [Samples.news; Samples.sports] None 2 1 `"quality"
                    ltac:(lia) ltac:(lia))).
  vm_compute. reflexivity.
Defined.

End LiveApiFacts.

(* ------------------------------------------------------------------ *)
(** ** The proxy gateway *)

Module ProxyGatewayFacts.
Import ProxyGateway.

(** C9: a GET or HEAD request whose [path] parameter is absent or has
    no segment, so that the host segment is missing, is answered with
    status 400, and no call of [fetch] is made, whatever the request,
    the URL class and the upstream are. *)
Theorem missing_host_rejected
  (newURL : URLConstructor) (fetch : FetchCall -> Outcome UpstreamResponse)
  (request : Request) :
  (status (fst (GET newURL fetch request None)) = 400%Z
   /\ snd (GET newURL fetch request None) = [])
  /\ (status (fst (GET newURL fetch request (Some []))) = 400%Z
      /\ snd (GET newURL fetch request (Some [])) = [])
  /\ (status (fst (HEAD newURL fetch request None)) = 400%Z
      /\ snd (HEAD newURL fetch request None) = [])
  /\ (status (fst (HEAD newURL fetch request (Some []))) = 400%Z
      /\ snd (HEAD newURL fetch request (Some [])) = []).
Proof. repeat split. Qed.

(** With a host segment, the only upstream contact a handler can make
    is one call for the rebuilt https URL. *)
Lemma GET_contacts (newURL : URLConstructor)
  (fetch : FetchCall -> Outcome UpstreamResponse) (request : Request)
  (host : jstring) (rest : list jstring) :
  (List.length (snd (GET newURL fetch request (Some (host :: rest)))) <= 1)%nat.
Proof.
  unfold GET. destruct (newURL (req_url request)); [|simpl; lia].
  destruct (newURL _); [|simpl; lia].
  destruct (fetch _); [|simpl; lia].
  destruct (negb _); simpl; lia.
Qed.

End ProxyGatewayFacts.

(* ------------------------------------------------------------------ *)
(** ** The proxy rewriter *)

Module RewriterFacts.
Import LivePlayPage Sessions.

Lemma onPage_true (b : Browser) (protocol : jstring) :
  onPage b protocol = true <-> pageProtocol b = Some protocol.
Proof.
  unfold onPage. destruct (pageProtocol b) as [p|].
  - rewrite eqb_eq. split; congruence.
  - split; discriminate.
Qed.

(** On an HTTP page, an https URL the URL class rejects makes
    [processUrl] throw what the constructor throws. *)
Lemma processUrl_throws (b : Browser) (url e : jstring) :
  pageProtocol b = Some `"http:" ->
  startsWith `"https://" url = true ->
  newURL b url = Thrown e ->
  processUrl b url = Thrown e.
Proof.
  intros Hp Hs Hu. unfold processUrl.
  apply onPage_true in Hp. now rewrite Hp, Hs, Hu.
Qed.

(** The channel list's rewriter returns a string on every input. *)
Lemma processChannelUrl_malformed (newURL : URLConstructor) (url e : jstring) :
  newURL url = Thrown e ->
  LiveChannelList.processChannelUrl newURL url = url.
Proof.
  intros Hu. unfold LiveChannelList.processChannelUrl.
  rewrite Hu. now destruct (startsWith `"https://" url).
Qed.

(** C6: the rewriting decision is to return a result on every string,
    a malformed URL passing through unchanged.  [processUrl] does not:
    on an HTTP page the string "https://", which the URL class rejects,
    makes it throw, and the session opened on it ends in the error
    state; [processChannelUrl], the same decision in the channel list,
    returns the string unchanged. *)
Theorem processUrl_throws_on_malformed_url :
  processUrl httpPage `"https://" = Thrown `"Invalid URL"
  /\ LiveChannelList.processChannelUrl PlainURL.construct `"https://"
     = `"https://"
  /\ streamStatus (openChannel httpPage (channelWith [`"https://"])) = error.
Proof. repeat split; vm_compute; reflexivity. Qed.

(** C8: [processUrl] on a page of protocol [pageProtocol]: on an HTTP
    page an https URL with host, path and query becomes
    "/proxy/" host path query; on an HTTPS page an http URL becomes
    "/httpproxy/" host path query, a prefix no "/proxy/" result has;
    when neither combination applies the URL is returned unchanged.
    "https://a.b/c?d=1" becomes "/proxy/a.b/c?d=1" on an HTTP page and
    stays as it is on an HTTPS page. *)
Theorem processUrl_decision (b : Browser) (url : jstring) :
  (forall u, newURL b url = Returned u ->
     pageProtocol b = Some `"http:" -> startsWith `"https://" url = true ->
     processUrl b url
       = Returned (`"/proxy/" ++ url_host u ++ url_pathname u ++ url_search u))
  /\ (forall u, newURL b url = Returned u ->
        pageProtocol b = Some `"https:" -> startsWith `"http://" url = true ->
        processUrl b url
          = Returned (`"/httpproxy/" ++ url_host u ++ url_pathname u
                      ++ url_search u))
  /\ (~ (pageProtocol b = Some `"http:" /\ startsWith `"https://" url = true) ->
      ~ (pageProtocol b = Some `"https:" /\ startsWith `"http://" url = true) ->
      processUrl b url = Returned url)
  /\ (forall u, startsWith `"/httpproxy/" (proxied `"/proxy/" u) = false
                /\ startsWith `"/proxy/" (proxied `"/httpproxy/" u) = false)
  /\ processUrl httpPage `"https://a.b/c?d=1" = Returned `"/proxy/a.b/c?d=1"
  /\ processUrl httpsPage `"https://a.b/c?d=1" = Returned `"https://a.b/c?d=1".
Proof.
  split; [|split; [|split]].
  - intros u Hurl Hp Hs. unfold processUrl. apply onPage_true in Hp.
    now rewrite Hp, Hs, Hurl.
  - intros u Hurl Hp Hs. unfold processUrl, windowDefined.
    assert (Hh : onPage b `"http:" = false).
    { unfold onPage. rewrite Hp. reflexivity. }
    apply onPage_true in Hp as Hp'. now rewrite Hh, Hp, Hs, Hp', Hurl.
  - intros H1 H2. unfold processUrl.
    destruct (onPage b `"http:" && startsWith `"https://" url) eqn:E1.
    + apply andb_true_iff in E1. rewrite onPage_true in E1. contradiction.
    + destruct (windowDefined b && startsWith `"http://" url
                && onPage b `"https:") eqn:E2; [|reflexivity].
      rewrite !andb_true_iff, onPage_true in E2. exfalso. apply H2. tauto.
  - repeat split; vm_compute; reflexivity.
Qed.

(** An http stream on an HTTPS page goes under the plaintext prefix. *)
Lemma processUrl_decision_example :
  processUrl httpsPage `"http://a.b/c?d=1" = Returned `"/httpproxy/a.b/c?d=1".
Proof.
  exact (proj1 (proj2 (processUrl_decision httpsPage `"http://a.b/c?d=1"))
           (mkURL `"http://a.b" `"a.b" `"/c" `"?d=1")
           eq_refl eq_refl eq_refl).
Defined.

End RewriterFacts.

(* ------------------------------------------------------------------ *)
(** ** Playback sessions *)

Module SessionFacts.
Import LivePlayPage Sessions.

Section InBrowser.

Variable b : Browser.

Lemma startPlayback_playbackUrl (urls : list jstring) (i : nat) (s : Player) :
  startPlayback b urls i s =
    (url <- playbackUrl b urls i ;;
     Returned (if includes `".m3u8" url && hlsSupported b
               then attachHls url s else setVideoSrc url s)).
Proof.
  unfold startPlayback, playbackUrl. destruct (nth_error urls i) as [o|];
    [|reflexivity].
  destruct (processUrl b o) as [url|e]; [|reflexivity].
  cbn [bind]. now destruct (includes `".m3u8" url && hlsSupported b).
Qed.

Ltac load_cases ch i :=
  unfold loadVideo;
  match goal with H : channel _ = Some ch |- _ => rewrite H end;
  rewrite startPlayback_playbackUrl;
  destruct (playbackUrl b (ch_urls ch) i) as [url|e]; cbn [bind try_catch];
  [destruct (includes `".m3u8" url && hlsSupported b)|].

Lemma destroyHls_frame (s : Player) :
  channel (destroyHls s) = channel s
  /\ currentUrlIndex (destroyHls s) = currentUrlIndex s
  /\ streamStatus (destroyHls s) = streamStatus s
  /\ statusTrace (destroyHls s) = statusTrace s.
Proof. unfold destroyHls. now destruct (video_hls s). Qed.

Lemma loadVideo_frame (i : nat) (s : Player) :
  channel (loadVideo b i s) = channel s
  /\ currentUrlIndex (loadVideo b i s) = currentUrlIndex s.
Proof.
  destruct (channel s) as [ch|] eqn:Hch.
  - load_cases ch i; now rewrite <- Hch.
  - unfold loadVideo. now rewrite Hch.
Qed.

(** [loadVideo] enters the connecting state, and leaves it for the
    error state at once exactly when the player cannot be set up. *)
Lemma loadVideo_status (i : nat) (s : Player) (ch : LiveChannel) :
  channel s = Some ch ->
  streamStatus (loadVideo b i s) =
    match playbackUrl b (ch_urls ch) i with
    | Returned _ => connecting
    | Thrown _ => error
    end
  /\ exists later,
       statusTrace (loadVideo b i s) = later ++ connecting :: statusTrace s.
Proof.
  intros Hch. load_cases ch i; (split; [reflexivity|]).
  - now exists [].
  - now exists [].
  - now exists [error].
Qed.

Lemma fatalError_frame (m : jstring) (s : Player) :
  channel (fatalError m s) = channel s
  /\ currentUrlIndex (fatalError m s) = currentUrlIndex s
  /\ streamStatus (fatalError m s) = error.
Proof. repeat split. Qed.

Lemma handleRetry_channel (s : Player) :
  channel (handleRetry b s) = channel s.
Proof.
  unfold handleRetry. destruct (channel s) as [ch|] eqn:Hch; [|assumption].
  destruct (_ <? _)%Z; unfold rerender;
    destruct (Nat.eqb _ _);
    repeat (rewrite ?(proj1 (loadVideo_frame _ _)); cbn [channel setCurrentUrlIndex]);
    rewrite ?(proj1 (destroyHls_frame s)); assumption.
Qed.

Lemma handleRetry_index (s : Player) (ch : LiveChannel) :
  channel s = Some ch ->
  currentUrlIndex (handleRetry b s)
    = nextIndex (List.length (ch_urls ch)) (currentUrlIndex s).
Proof.
  intros Hch. unfold handleRetry, nextIndex. rewrite Hch.
  destruct (Z.ltb_spec (Z.of_nat (currentUrlIndex s))
              (Z.of_nat (List.length (ch_urls ch)) - 1)) as [Hlt|Hge].
  - destruct (Nat.ltb_spec (currentUrlIndex s + 1) (List.length (ch_urls ch)));
      [|lia].
    unfold rerender. cbn [currentUrlIndex setCurrentUrlIndex].
    destruct (Nat.eqb_spec (currentUrlIndex s) (currentUrlIndex s + 1)); [lia|].
    now rewrite (proj2 (loadVideo_frame _ _)).
  - destruct (Nat.ltb_spec (currentUrlIndex s + 1) (List.length (ch_urls ch)));
      [lia|].
    unfold rerender. rewrite (proj2 (loadVideo_frame _ _)).
    cbn [currentUrlIndex setCurrentUrlIndex].
    destruct (Nat.eqb (currentUrlIndex s) 0); [|rewrite (proj2 (loadVideo_frame _ _))];
      now rewrite (proj2 (loadVideo_frame _ _)).
Qed.





(** *** Engine instances *)

Lemma destroyHls_single (s : Player) :
  SingleEngine s ->
  engines (destroyHls s) = [] /\ video_hls (destroyHls s) = None.
Proof.
  unfold SingleEngine, destroyHls. destruct (video_hls s) as [id|] eqn:E.
  - intros H. cbn [engines video_hls]. split; [|reflexivity].
    destruct (engines s) as [|e [|e' r]]; try discriminate.
    inversion H. cbn. now rewrite Nat.eqb_refl.
  - intros H. rewrite E. split; [|reflexivity].
    now destruct (engines s).
Qed.

(** Loading when no engine is alive leaves at most the one engine the
    element refers to. *)
Lemma loadVideo_fresh (i : nat) (s : Player) :
  engines s = [] -> video_hls s = None -> SingleEngine (loadVideo b i s).
Proof.
  intros He Hv. unfold SingleEngine.
  destruct (channel s) as [ch|] eqn:Hch.
  - load_cases ch i;
      cbn [engines video_hls attachHls setVideoSrc setStreamStatus setError
           setIsLoading]; rewrite ?He, ?Hv; reflexivity.
  - unfold loadVideo. now rewrite Hch, He, Hv.
Qed.

Lemma openChannel_single (ch : LiveChannel) : SingleEngine (openChannel b ch).
Proof. unfold openChannel. now apply loadVideo_fresh. Qed.

Lemma fatalError_single (m : jstring) (s : Player) :
  SingleEngine s -> SingleEngine (fatalError m s).
Proof. intros H. exact H. Qed.

Lemma handleSourceSelect_single (i : nat) (s : Player) :
  SingleEngine s -> SingleEngine (handleSourceSelect b i s).
Proof.
  intros H. unfold handleSourceSelect.
  destruct (channel s); [|assumption].
  destruct (Nat.eqb_spec i (currentUrlIndex s)); [assumption|].
  unfold rerender. cbn [currentUrlIndex setShowSourceSelector setCurrentUrlIndex].
  destruct (Nat.eqb_spec (currentUrlIndex s) i); [congruence|].
  destruct (destroyHls_single H) as [He Hv].
  apply loadVideo_fresh; assumption.
Qed.

(** [retry] keeps the engines single when it advances, and when it
    wraps from index 0; the wrap from a later index is the case left. *)
Lemma handleRetry_single_unless_wrap (s : Player) (ch : LiveChannel) :
  channel s = Some ch ->
  SingleEngine s ->
  (currentUrlIndex s + 1 < List.length (ch_urls ch))%nat
  \/ currentUrlIndex s = 0 ->
  SingleEngine (handleRetry b s).
Proof.
  intros Hch H Hcase. unfold handleRetry. rewrite Hch.
  destruct (destroyHls_single H) as [He Hv].
  destruct (Z.ltb_spec (Z.of_nat (currentUrlIndex s))
              (Z.of_nat (List.length (ch_urls ch)) - 1)) as [Hlt|Hge].
  - unfold rerender. cbn [currentUrlIndex setCurrentUrlIndex].
    destruct (Nat.eqb_spec (currentUrlIndex s) (currentUrlIndex s + 1)); [lia|].
    apply loadVideo_fresh; assumption.
  - destruct Hcase as [Hadv|H0]; [lia|].
    unfold rerender. rewrite (proj2 (loadVideo_frame _ _)).
    cbn [currentUrlIndex setCurrentUrlIndex]. rewrite H0. cbn [Nat.eqb].
    apply loadVideo_fresh; assumption.
Qed.

End InBrowser.

(** C4: a session is to hold at most one live engine instance whatever
    the load, retry and select-source operations are.  The code keeps
    that through source selection and through the retries that advance,
    but not through a retry that wraps from a later index: on a channel
    with two HLS URLs, after two fatal errors each followed by [retry],
    two engine instances are alive, one of them no longer referred to by
    the video element, so that nothing will destroy it. *)
Theorem wrapping_retry_leaves_two_engines :
  let s0 := openChannel httpPage twoSources in
  let s := run httpPage s0 [fatal; Retry; fatal; Retry] in
  List.length (engines s0) = 1
  /\ List.length (engines (run httpPage s0 [fatal; Retry])) = 1
  /\ engines s = [mkEngine 2 `"http://x/b.m3u8"; mkEngine 3 `"http://x/a.m3u8"]
  /\ video_hls s = Some 3
  /\ List.length (engines s) = 2
  /\ ~ SingleEngine s.
Proof.
  cbv zeta. repeat split; try (vm_compute; reflexivity).
  vm_compute. discriminate.
Qed.


End SessionFacts.

(* ================================================================== *)
(** * Further properties of the code *)

(* ------------------------------------------------------------------ *)
(** ** More on strings *)

Module StringMore.

Lemma split_app_sep (sep : code_unit) (a b : jstring) :
  split sep (a ++ sep :: b) = split sep a ++ split sep b.
Proof.
  induction a as [|c a IH]; cbn [app split].
  - now rewrite N.eqb_refl.
  - destruct (N.eqb c sep); [now rewrite IH|].
    rewrite IH. destruct (split sep a) as [|w ws] eqn:S; [|reflexivity].
    now apply M3UFacts.split_nonempty in S.
Qed.

Lemma split_without_sep (sep : code_unit) (a : jstring) :
  Forall (fun c => c <> sep) a -> split sep a = [a].
Proof.
  induction 1 as [|c a Hc _ IH]; [reflexivity|].
  cbn [split]. apply N.eqb_neq in Hc. now rewrite Hc, IH.
Qed.

Lemma split_join (sep : code_unit) (parts : list jstring) :
  parts <> [] ->
  split sep (join [sep] parts) = flat_map (split sep) parts.
Proof.
  induction parts as [|w [|w' ws] IH]; intros Hne; [congruence| |].
  - cbn. now rewrite app_nil_r.
  - change (join [sep] (w :: w' :: ws))
      with (w ++ sep :: join [sep] (w' :: ws)).
    rewrite split_app_sep, IH by discriminate. reflexivity.
Qed.

Lemma trimStart_app_unit (u : jstring) (c : code_unit) (v : jstring) :
  isWhiteSpace c = false ->
  trimStart (u ++ c :: v) = trimStart u ++ c :: v.
Proof.
  intros Hc. induction u as [|x u IH]; cbn [app trimStart].
  - now rewrite Hc.
  - destruct (isWhiteSpace x); [exact IH | reflexivity].
Qed.

Lemma trimEnd_app_unit (a : jstring) (c : code_unit) (x : jstring) :
  isWhiteSpace c = false ->
  trimEnd (a ++ c :: x) = a ++ c :: trimEnd x.
Proof.
  intros Hc. unfold trimEnd.
  rewrite rev_app_distr. cbn [rev]. rewrite <- app_assoc. cbn [app].
  rewrite trimStart_app_unit by assumption.
  rewrite rev_app_distr. cbn [rev]. rewrite rev_involutive, <- app_assoc.
  reflexivity.
Qed.

Lemma trimStart_all_space (s : jstring) :
  Forall (fun c => isWhiteSpace c = true) s -> trimStart s = [].
Proof.
  induction 1 as [|c s Hc _ IH]; [reflexivity|]. cbn. now rewrite Hc.
Qed.

(** A text is white space only, or white space followed by a unit that
    is not. *)
Lemma leading_space (s : jstring) :
  Forall (fun c => isWhiteSpace c = true) s
  \/ exists u c v, s = u ++ c :: v
       /\ Forall (fun c => isWhiteSpace c = true) u
       /\ isWhiteSpace c = false.
Proof.
  induction s as [|x s IH]; [left; constructor|].
  destruct (isWhiteSpace x) eqn:E.
  - destruct IH as [IH|[u [c [v [-> [Hu Hc]]]]]].
    + left. now constructor.
    + right. exists (x :: u), c, v. repeat split; [now constructor | assumption].
  - right. exists [], x, s. repeat split; [constructor | assumption].
Qed.

Lemma trimEnd_all_space (s : jstring) :
  Forall (fun c => isWhiteSpace c = true) s -> trimEnd s = [].
Proof.
  intros H. unfold trimEnd. rewrite trimStart_all_space; [reflexivity|].
  now apply Forall_rev.
Qed.

Lemma trim_cases (s : jstring) :
  (Forall (fun c => isWhiteSpace c = true) s /\ trim s = [])
  \/ exists u c v, s = u ++ c :: v
       /\ Forall (fun c => isWhiteSpace c = true) u
       /\ isWhiteSpace c = false
       /\ trimStart s = c :: v
       /\ trim s = c :: trimEnd v.
Proof.
  destruct (leading_space s) as [H|[u [c [v [-> [Hu Hc]]]]]].
  - left. split; [assumption|]. unfold trim.
    now rewrite trimStart_all_space.
  - right. exists u, c, v. repeat split; try assumption.
    + now rewrite trimStart_app_unit, trimStart_all_space.
    + unfold trim. rewrite trimStart_app_unit, trimStart_all_space by assumption.
      apply (@trimEnd_app_unit [] c v Hc).
Qed.

Lemma trimStart_trimEnd (s : jstring) :
  trimStart (trimEnd s) = trimEnd (trimStart s).
Proof.
  destruct (trim_cases s) as [[H _]|[u [c [v [-> [Hu [Hc [Hs _]]]]]]]].
  - rewrite (trimEnd_all_space H), (trimStart_all_space H). reflexivity.
  - assert (E : trimEnd (c :: v) = c :: trimEnd v)
      by apply (@trimEnd_app_unit [] c v Hc).
    rewrite Hs, E, trimEnd_app_unit, trimStart_app_unit by assumption.
    now rewrite trimStart_all_space.
Qed.

Lemma trimStart_idempotent (s : jstring) : trimStart (trimStart s) = trimStart s.
Proof.
  induction s as [|c s IH]; [reflexivity|]. cbn [trimStart].
  destruct (isWhiteSpace c) eqn:E; [exact IH|]. cbn. now rewrite E.
Qed.

Lemma trimEnd_idempotent (s : jstring) : trimEnd (trimEnd s) = trimEnd s.
Proof.
  unfold trimEnd. now rewrite rev_involutive, trimStart_idempotent.
Qed.

Lemma trim_trimEnd (s : jstring) : trim (trimEnd s) = trim s.
Proof.
  unfold trim. now rewrite trimStart_trimEnd, trimEnd_idempotent.
Qed.

Lemma trim_idempotent (s : jstring) : trim (trim s) = trim s.
Proof.
  unfold trim.
  now rewrite trimStart_trimEnd, trimStart_idempotent, trimEnd_idempotent.
Qed.

Lemma trim_keeps_unit (s : jstring) (c : code_unit) :
  In c s -> isWhiteSpace c = false -> trim s <> [].
Proof.
  intros Hin Hc.
  destruct (trim_cases s) as [[H _]|[u [x [v [_ [_ [_ [_ ->]]]]]]]];
    [|discriminate].
  rewrite Forall_forall in H. specialize (H c Hin). congruence.
Qed.

Lemma trimStart_Forall (P : code_unit -> Prop) (s : jstring) :
  Forall P s -> Forall P (trimStart s).
Proof.
  induction 1 as [|c s Hc Hs IH]; [constructor|]. cbn [trimStart].
  destruct (isWhiteSpace c); [exact IH | now constructor].
Qed.

Lemma trim_Forall (P : code_unit -> Prop) (s : jstring) :
  Forall P s -> Forall P (trim s).
Proof.
  intros H. unfold trim, trimEnd.
  apply Forall_rev, trimStart_Forall, Forall_rev, trimStart_Forall, H.
Qed.


End StringMore.

(* ------------------------------------------------------------------ *)
(** ** The live page *)

Module LivePageFacts.
Import LivePage StringMore.

Lemma flat_map_split_plain (sep : code_unit) (parts : list jstring) :
  Forall (Forall (fun c => c <> sep)) parts ->
  flat_map (split sep) parts = parts.
Proof.
  induction 1 as [|w ws Hw _ IH]; [reflexivity|].
  cbn [flat_map]. now rewrite (split_without_sep Hw), IH.
Qed.

Lemma flat_map_split_length (sep : code_unit) (parts : list jstring) :
  (List.length parts <= List.length (flat_map (split sep) parts))%nat.
Proof.
  induction parts as [|w ws IH]; [apply Nat.le_refl|].
  cbn [flat_map]. rewrite length_app.
  destruct (split sep w) eqn:S; [now apply M3UFacts.split_nonempty in S|].
  simpl. lia.
Qed.

(** The candidate URLs handed from the channel list to the player page:
    the player receives every URL of a non-empty list cut at its commas,
    so exactly the list that was sent when no URL holds a comma and a
    longer list otherwise; an empty list arrives as one empty URL. *)
Theorem urls_hand_over (ch : LiveChannel) :
  (ch_urls ch <> [] ->
   urlsOfParam (Some (urlsParam ch)) = flat_map (split 44%N) (ch_urls ch))
  /\ (ch_urls ch <> [] ->
      Forall (Forall (fun c => c <> 44%N)) (ch_urls ch) ->
      urlsOfParam (Some (urlsParam ch)) = ch_urls ch)
  /\ (List.length (ch_urls ch)
      <= List.length (urlsOfParam (Some (urlsParam ch))))%nat
  /\ (ch_urls ch = [] -> urlsOfParam (Some (urlsParam ch)) = [[]]).
Proof.
  unfold urlsOfParam, urlsParam. change (`",") with [44%N].
  split; [intros Hne; now apply split_join|].
  split.
  { intros Hne Hplain. rewrite split_join by assumption.
    now apply flat_map_split_plain. }
  split.
  { destruct (ch_urls ch) as [|u us] eqn:E; [simpl; lia|].
    rewrite split_join by discriminate. apply flat_map_split_length. }
  intros ->. reflexivity.
Qed.

(** Two comma-free URLs arrive as sent. *)
Lemma urls_hand_over_two_sources :
  urlsOfParam (Some (urlsParam Sessions.twoSources))
  = [`"http://x/a.m3u8"; `"http://x/b.m3u8"].
Proof.
  apply (proj1 (proj2 (urls_hand_over Sessions.twoSources))).
  - discriminate.
  - repeat constructor; discriminate.
Defined.

Lemma isFavorite_In (channelId : jstring) (prev : list jstring) :
  existsb (fun id => eqb id channelId) prev = true <-> In channelId prev.
Proof.
  rewrite existsb_exists. split.
  - intros [x [Hin E]]. apply eqb_eq in E. now subst.
  - intros Hin. exists channelId. split; [assumption | apply eqb_refl].
Qed.

(** Toggling a favorite flips the membership of that channel id and of
    no other, keeps a duplicate-free list duplicate-free, and toggling
    twice an id that was absent gives the list back. *)
Theorem toggleFavorite_flips (channelId : jstring) (prev : list jstring) :
  (In channelId (toggleFavorite channelId prev) <-> ~ In channelId prev)
  /\ (forall other, other <> channelId ->
        (In other (toggleFavorite channelId prev) <-> In other prev))
  /\ (NoDup prev -> NoDup (toggleFavorite channelId prev))
  /\ (~ In channelId prev ->
      toggleFavorite channelId (toggleFavorite channelId prev) = prev).
Proof.
  unfold toggleFavorite.
  destruct (existsb (fun id => eqb id channelId) prev) eqn:E.
  - apply isFavorite_In in E.
    split.
    { rewrite filter_In, eqb_refl. cbn. intuition congruence. }
    split.
    { intros other Hne. rewrite filter_In. apply eqb_neq in Hne.
      rewrite Hne. cbn. tauto. }
    split; [apply NoDup_filter | contradiction].
  - assert (Hnin : ~ In channelId prev).
    { rewrite <- isFavorite_In. congruence. }
    split.
    { rewrite in_app_iff. cbn. tauto. }
    split.
    { intros other Hne. rewrite in_app_iff. cbn. intuition congruence. }
    split.
    { intros Hnd. apply NoDup_rev in Hnd.
      rewrite <- (rev_involutive (prev ++ [channelId])).
      apply NoDup_rev. rewrite rev_app_distr. cbn. constructor; [|assumption].
      now rewrite <- in_rev. }
    intros _.
    assert (Hin : existsb (fun id => eqb id channelId) (prev ++ [channelId])
                  = true).
    { apply isFavorite_In, in_or_app. right. now left. }
    rewrite Hin, filter_app. cbn. rewrite eqb_refl. cbn.
    rewrite app_nil_r. clear E Hin.
    induction prev as [|x prev IH]; [reflexivity|].
    cbn. destruct (eqb x channelId) eqn:Ex.
    + apply eqb_eq in Ex. subst. exfalso. apply Hnin. now left.
    + cbn. f_equal. apply IH. intros H. apply Hnin. now right.
Qed.

(** A channel added and removed again. *)
Lemma toggleFavorite_twice :
  toggleFavorite `"News-CCTV1" (toggleFavorite `"News-CCTV1" [`"Sports-CCTV5-HD"])
  = [`"Sports-CCTV5-HD"].
Proof.
  apply (proj2 (proj2 (proj2 (toggleFavorite_flips `"News-CCTV1"
                                [`"Sports-CCTV5-HD"])))).
  intros [H|[]]. discriminate.
Defined.

End LivePageFacts.

(* ------------------------------------------------------------------ *)
(** ** More on parseM3U, toM3U and the name normalizer *)

Module ParserMore.
Import LiveChannelParser ParserTools SpecWords StringMore.

Lemma afterFirst_of_comma_http (line : jstring) :
  includes `",http" line = true -> In 104%N (afterFirst 44%N line).
Proof.
  rewrite includes_infix. intros [a [b ->]].
  induction a as [|c a IH]; cbn [app afterFirst].
  - cbn. auto.
  - destruct (N.eqb c 44).
    + apply in_or_app. right. cbn. auto.
    + exact IH.
Qed.

Lemma parseM3U_loop_items (lines : list jstring) :
  Forall (fun item => item_url item <> []) (parseM3U_loop lines)
  /\ (List.length (parseM3U_loop lines) <= List.length lines)%nat.
Proof.
  remember (List.length lines) as k eqn:Hk.
  revert lines Hk. induction k as [k IH] using lt_wf_ind. intros lines Hk.
  destruct lines as [|line rest]; [split; [constructor | simpl; lia]|].
  subst k.
  assert (IH1 : Forall (fun item => item_url item <> []) (parseM3U_loop rest)
                /\ (List.length (parseM3U_loop rest) <= List.length rest)%nat).
  { apply (IH (List.length rest)); [simpl; lia | reflexivity]. }
  assert (Skip : Forall (fun item => item_url item <> []) (parseM3U_loop rest)
                 /\ (List.length (parseM3U_loop rest)
                     <= List.length (line :: rest))%nat).
  { split; [tauto | simpl; lia]. }
  cbn [parseM3U_loop].
  destruct (startsWith `"#EXTM3U" line || negb (truthy line)); [exact Skip|].
  destruct (startsWith `"#EXTINF:" line).
  - destruct rest as [|n rest']; [exact Skip|].
    destruct (truthy n && negb (startsWith `"#" n)) eqn:E; [|exact Skip].
    assert (IH2 : Forall (fun item => item_url item <> [])
                    (parseM3U_loop rest')
                  /\ (List.length (parseM3U_loop rest')
                      <= List.length rest')%nat).
    { apply (IH (List.length rest')); [simpl; lia | reflexivity]. }
    split; [|simpl in *; lia].
    constructor; [|tauto]. cbn [item_url].
    apply andb_true_iff in E. destruct E as [E _].
    destruct n; [discriminate | discriminate].
  - destruct (includes `",http" line) eqn:Ei; [|exact Skip].
    destruct (truthy (hd [] (split 44%N line))
              && truthy (join `"," (tl (split 44%N line)))); [|exact Skip].
    split; [|simpl; lia].
    constructor; [|tauto]. cbn [item_url].
    change (`",") with [44%N]. rewrite M3UFacts.join_tl_split.
    apply (@trim_keeps_unit _ 104%N (afterFirst_of_comma_http _ Ei)).
    reflexivity.
Qed.

(** Every item [parseM3U] returns has a non-empty URL, and there are at
    most as many items as non-empty lines. *)
Theorem parseM3U_items (content : jstring) :
  Forall (fun item => item_url item <> []) (parseM3U content)
  /\ (List.length (parseM3U content)
      <= List.length (lines_of content))%nat.
Proof. apply parseM3U_loop_items. Qed.

(** *** The name normalizer *)

Lemma replaceRuns_units (rep : jstring) (inRun : bool) (s : jstring)
  (P : code_unit -> Prop) :
  Forall P rep ->
  Forall (fun c => isWhiteSpace c = false -> P c) s ->
  Forall P (replaceRuns rep inRun s).
Proof.
  intros Hrep Hs. revert inRun.
  induction Hs as [|c s Hc _ IH]; intros inRun; [constructor|].
  cbn [replaceRuns]. destruct (isWhiteSpace c) eqn:E.
  - destruct inRun; [apply IH|]. apply Forall_app. split; [assumption | apply IH].
  - constructor; [now apply Hc | apply IH].
Qed.

Lemma filter_Forall_both (A : Type) (f : A -> bool) (P : A -> Prop)
  (l : list A) :
  Forall P l -> Forall (fun x => P x /\ f x = true) (filter f l).
Proof.
  induction 1 as [|x l Hx _ IH]; [constructor|]. cbn.
  destruct (f x) eqn:E; [constructor; auto | assumption].
Qed.

Lemma space_or_plain (c : code_unit) :
  (c = 32%N \/ isWhiteSpace c = false) -> nameUnitKept c = true ->
  isNameUnit c = true.
Proof.
  unfold nameUnitKept, isNameUnit. intros [->|Hws]; [reflexivity|].
  rewrite Hws, orb_false_r. intros ->. reflexivity.
Qed.

Lemma normalizeChannelName_units (name : jstring) :
  Forall (fun c => isNameUnit c = true) (normalizeChannelName name).
Proof.
  unfold normalizeChannelName, replaceWhiteSpace.
  apply trim_Forall.
  assert (H : Forall (fun c => c = 32%N \/ isWhiteSpace c = false)
                (replaceRuns `" " false (trim name))).
  { apply replaceRuns_units.
    - repeat constructor.
    - apply Forall_forall. auto. }
  apply (filter_Forall_both nameUnitKept) in H.
  eapply Forall_impl; [|exact H].
  intros c [H1 H2]. now apply space_or_plain.
Qed.

(** A normalized channel name holds only word units, CJK ideographs,
    hyphens and plain spaces, and has no white space at either end:
    trimming it again changes nothing. *)
Theorem normalizeChannelName_shape (name : jstring) :
  Forall (fun c => isNameUnit c = true) (normalizeChannelName name)
  /\ trim (normalizeChannelName name) = normalizeChannelName name.
Proof.
  split; [apply normalizeChannelName_units | apply trim_idempotent].
Qed.

Ltac units_in H :=
  repeat first [ rewrite orb_true_iff in H | rewrite andb_true_iff in H
               | rewrite N.leb_le in H | rewrite N.eqb_eq in H ].

Ltac units_goal :=
  repeat first [ rewrite orb_true_iff | rewrite andb_true_iff
               | rewrite N.leb_le | rewrite N.eqb_eq ].

Lemma not_space_units (c : code_unit) :
  id_unit_ok c = true \/ isWordUnit c = true \/ isCJK c = true \/ c = 45%N ->
  isWhiteSpace c = false.
Proof.
  unfold id_unit_ok, isWordUnit, isCJK, isWhiteSpace.
  intros H. apply not_true_is_false. intros Hws.
  units_in H. units_in Hws. lia.
Qed.

Lemma lowered_unit (c : code_unit) :
  id_unit_ok c = true \/ isWordUnit c = true \/ isCJK c = true \/ c = 45%N ->
  isIdUnit (lowerUnit c) = true.
Proof.
  unfold id_unit_ok, isWordUnit, isIdUnit, lowerUnit, isCJK.
  intros H.
  destruct ((65 <=? c) && (c <=? 90))%N eqn:E.
  - apply andb_true_iff in E. rewrite !N.leb_le in E.
    units_goal. lia.
  - units_in H. apply andb_false_iff in E. rewrite !N.leb_gt in E.
    units_goal.
    repeat match goal with K : _ \/ _ |- _ => destruct K end;
      try discriminate; lia.
Qed.

(** A generated channel id holds only lower-case letters, digits,
    underscores, hyphens and CJK ideographs: no white space, no
    upper-case letter and no punctuation, whatever the name and the
    category are. *)
Theorem generateChannelId_units (name category : jstring) :
  Forall (fun c => isIdUnit c = true) (generateChannelId name category).
Proof.
  unfold generateChannelId, toLowerCase, replaceWhiteSpace.
  apply Forall_map.
  set (Q := fun c => id_unit_ok c = true \/ isWordUnit c = true
                     \/ isCJK c = true \/ c = 45%N).
  assert (H : Forall Q
                (replaceRuns `"-" false
                   (filter id_unit_ok category ++ `"-"
                    ++ normalizeChannelName name))).
  { apply replaceRuns_units; [repeat constructor; unfold Q; auto|].
    apply Forall_app. split; [|apply Forall_app; split].
    - apply Forall_forall. intros c Hc _. apply filter_In in Hc.
      unfold Q. tauto.
    - constructor; [|constructor]. intros _. unfold Q. auto.
    - eapply Forall_impl; [|apply (normalizeChannelName_units name)].
      intros c Hc Hws. unfold isNameUnit in Hc. unfold Q.
      rewrite !orb_true_iff, !N.eqb_eq in Hc.
      destruct Hc as [[[Hc|Hc]|Hc]|Hc]; auto.
      subst c. discriminate. }
  eapply Forall_impl; [|exact H]. intros c Hc. now apply lowered_unit.
Qed.

(** *** toM3U read back by parseM3U *)

Lemma lines_of_app_line (a rest : jstring) :
  Forall (fun c => c <> 10%N) a ->
  lines_of (a ++ lineFeed ++ rest) = filter truthy [trim a] ++ lines_of rest.
Proof.
  intros Ha. unfold lines_of, lineFeed. cbn [app].
  rewrite split_app_sep, (split_without_sep Ha), map_app, filter_app.
  reflexivity.
Qed.

Lemma trim_between (c : code_unit) (x : jstring) (d : code_unit) (y : jstring) :
  isWhiteSpace c = false -> isWhiteSpace d = false ->
  trim (c :: x ++ d :: y) = c :: x ++ d :: trimEnd y.
Proof.
  intros Hc Hd. unfold trim. cbn [trimStart]. rewrite Hc.
  apply (@trimEnd_app_unit (c :: x) d y Hd).
Qed.

Lemma substring_from_prefix (p x : jstring) :
  substring_from (Z.of_nat (List.length p)) (p ++ x) = x.
Proof.
  unfold substring_from, clamp. rewrite length_app.
  replace (Z.to_nat _) with (List.length p) by lia.
  rewrite skipn_app, skipn_all, Nat.sub_diag. reflexivity.
Qed.

Lemma afterFirst_skip (sep : code_unit) (x y : jstring) :
  Forall (fun c => c <> sep) x -> afterFirst sep (x ++ sep :: y) = y.
Proof.
  induction 1 as [|c x Hc _ IH]; cbn [app afterFirst].
  - now rewrite N.eqb_refl.
  - apply N.eqb_neq in Hc. now rewrite Hc.
Qed.

Lemma extinfLine_parts (g : jstring) (ch : LiveChannel) :
  extinfLine g ch = `"#EXTINF:" ++ attributes g ch ++ 44%N :: ch_name ch.
Proof.
  unfold extinfLine, attributes. repeat rewrite <- app_assoc. reflexivity.
Qed.

Lemma plainText_parts (s : jstring) :
  plainText s ->
  Forall (fun c => c <> 44%N) s /\ Forall (fun c => c <> 10%N) s.
Proof.
  intros H. split; (eapply Forall_impl; [|exact H]); cbv beta; tauto.
Qed.

Lemma attributes_plain (g : jstring) (ch : LiveChannel) :
  plainText g -> plainText (ch_name ch) -> plainText (attributes g ch).
Proof.
  intros Hg Hn. unfold attributes, plainText.
  repeat (apply Forall_app; split); try assumption;
    repeat constructor; discriminate.
Qed.

Lemma trim_extinfLine (g : jstring) (ch : LiveChannel) :
  trim (extinfLine g ch)
  = `"#EXTINF:" ++ attributes g ch ++ 44%N :: trimEnd (ch_name ch).
Proof.
  rewrite extinfLine_parts.
  change (`"#EXTINF:" ++ attributes g ch ++ 44%N :: ch_name ch)
    with (35%N :: (`"EXTINF:" ++ attributes g ch) ++ 44%N :: ch_name ch).
  rewrite trim_between by reflexivity.
  reflexivity.
Qed.

Lemma exported_pair (g : jstring) (ch : LiveChannel) (rest : list jstring) :
  exportable g ch ->
  parseM3U_loop (trim (extinfLine g ch) :: trim (firstUrlText ch) :: rest)
  = exportedItem ch :: parseM3U_loop rest.
Proof.
  intros (Hg & Hn & _ & Hu & Hc).
  assert (Hinf : startsWith `"#EXTINF:" (trim (extinfLine g ch)) = true).
  { rewrite trim_extinfLine. apply startsWith_prefix. eauto. }
  assert (Ht : truthy (trim (extinfLine g ch)) = true).
  { rewrite trim_extinfLine. reflexivity. }
  assert (Hut : truthy (trim (firstUrlText ch)) = true).
  { destruct (trim (firstUrlText ch)); [congruence | reflexivity]. }
  cbn [parseM3U_loop].
  rewrite (M3UFacts.extinf_not_header _ Hinf), Ht, Hinf, Hut, Hc.
  cbn [negb orb andb]. unfold exportedItem. do 2 f_equal.
  rewrite M3UFacts.extinf_title_first_comma.
  unfold titleAfterFirstComma, extinfPayload.
  rewrite trim_extinfLine.
  rewrite (substring_from_prefix `"#EXTINF:").
  rewrite afterFirst_skip
    by apply (proj1 (plainText_parts (attributes_plain ch Hg Hn))).
  apply trim_trimEnd.
Qed.

Lemma exported_lines (g : jstring) (ch : LiveChannel) (rest : jstring) :
  exportable g ch ->
  lines_of (m3uEntry g ch ++ rest)
  = trim (extinfLine g ch) :: trim (firstUrlText ch) :: lines_of rest.
Proof.
  intros (Hg & Hn & Hl & Hu & Hc). unfold m3uEntry.
  repeat rewrite <- app_assoc.
  rewrite lines_of_app_line.
  2:{ rewrite extinfLine_parts.
      apply Forall_app; split; [repeat constructor; discriminate|].
      apply Forall_app; split.
      - apply (proj2 (plainText_parts (attributes_plain ch Hg Hn))).
      - constructor; [discriminate | apply (proj2 (plainText_parts Hn))]. }
  rewrite lines_of_app_line by assumption.
  change (lineFeed ++ rest) with ([] ++ lineFeed ++ rest).
  rewrite (@lines_of_app_line [] rest) by constructor.
  rewrite trim_extinfLine.
  destruct (trim (firstUrlText ch)); [congruence | reflexivity].
Qed.

Lemma exported_channels (g : jstring) (chans : list LiveChannel)
  (rest : jstring) :
  Forall (exportable g) chans ->
  parseM3U_loop (lines_of (flat_map (m3uEntry g) chans ++ rest))
  = List.map exportedItem chans ++ parseM3U_loop (lines_of rest).
Proof.
  induction 1 as [|ch chans Hch _ IH]; [reflexivity|].
  cbn [flat_map List.map app]. rewrite <- app_assoc.
  rewrite (exported_lines _ Hch), (exported_pair _ Hch), IH. reflexivity.
Qed.

(** [toM3U] read back by [parseM3U]: when no category or channel name
    holds a comma or a line feed and every first URL is a non-blank
    line that does not start with "#", the items read back are, in
    order, one per channel, with the channel's trimmed name and its
    trimmed first URL (the text "undefined" for a channel without
    URLs); the other URLs of a channel and its category are not read
    back. *)
Theorem parseM3U_toM3U (categories : list LiveCategory)
  (Hexp : Exportable categories) :
  parseM3U (toM3U categories)
  = flat_map (fun category => List.map exportedItem (cat_channels category))
             categories.
Proof.
  unfold parseM3U, toM3U.
  rewrite (@lines_of_app_line `"#EXTM3U")
    by (repeat constructor; discriminate).
  match goal with
  | |- context [lines_of (lineFeed ++ ?body)] =>
      change (lineFeed ++ body) with ([] ++ lineFeed ++ body)
  end.
  rewrite (@lines_of_app_line []) by constructor.
  change (filter truthy [trim `"#EXTM3U"]) with [`"#EXTM3U"].
  change (filter truthy [trim []]) with (@nil jstring).
  cbn [app]. change (parseM3U_loop (`"#EXTM3U" :: ?l)) with (parseM3U_loop l).
  assert (G : forall rest,
             parseM3U_loop
               (lines_of
                  (flat_map (fun category =>
                               flat_map (m3uEntry (cat_name category))
                                        (cat_channels category))
                            categories ++ rest))
             = flat_map (fun category =>
                           List.map exportedItem (cat_channels category))
                        categories
               ++ parseM3U_loop (lines_of rest)).
  { induction Hexp as [|category cats Hc _ IH]; intros rest; [reflexivity|].
    cbn [flat_map]. rewrite <- !app_assoc.
    rewrite (exported_channels _ Hc), IH. reflexivity. }
  specialize (G []). rewrite !app_nil_r in G. exact G.
Qed.

(** The sample catalog written and read back. *)
Lemma parseM3U_toM3U_sample :
  parseM3U (toM3U [Samples.news; Samples.sports])
  = [mkItem `"CCTV1" `"http://x/1.m3u8"; mkItem `"CCTV5 HD" `"http://a/5.m3u8"].
Proof.
  apply (parseM3U_toM3U (categories := [Samples.news; Samples.sports])).
  repeat constructor; try discriminate.
Defined.

End ParserMore.

(* ------------------------------------------------------------------ *)
(** ** More on parseChineseTVFormat *)

Module CatalogMore.
Import LiveChannelParser CatalogEntries CatalogFacts StringMore.


Lemma final_keys (content : jstring) :
  NoDup (List.map fst
           (categories (fold_left processLine (lines_of content) initialState))).
Proof. apply processLines_keys. constructor. Qed.

(** *** The categories *)

Lemma toCategories_entry (localeCompare : jstring -> jstring -> Z)
  (m : ChannelMap) (k : Z) (cat : LiveCategory) :
  In cat (toCategories localeCompare m k) ->
  (k <= cat_sortOrder cat)%Z
  /\ cat_id cat = sanitize_id (cat_name cat)
  /\ cat_channels cat <> []
  /\ In (cat_name cat) (List.map fst m).
Proof.
  revert k. induction m as [|[name chans] m IH]; intros k; cbn [toCategories];
    [contradiction|].
  destruct (Z.ltb_spec 0 (Z.of_nat (List.length chans))) as [Hpos|Hzero].
  - intros [<-|Hin].
    + cbn. split; [lia|]. split; [reflexivity|]. split; [|now left].
      intros E. apply (f_equal (@List.length _)) in E.
      rewrite sort_length in E. cbn in E. lia.
    + destruct (IH _ Hin) as (H1 & H2 & H3 & H4).
      split; [lia|]. split; [assumption|]. split; [assumption | now right].
  - intros Hin. destruct (IH _ Hin) as (H1 & H2 & H3 & H4).
    split; [lia|]. split; [assumption|]. split; [assumption | now right].
Qed.

Lemma toCategories_names (localeCompare : jstring -> jstring -> Z)
  (m : ChannelMap) (k : Z) :
  NoDup (List.map fst m) ->
  NoDup (List.map cat_name (toCategories localeCompare m k)).
Proof.
  revert k. induction m as [|[name chans] m IH]; intros k Hnd;
    cbn [toCategories]; [constructor|].
  inversion Hnd as [|? ? Hnin Hnd']; subst.
  destruct (0 <? Z.of_nat (List.length chans))%Z; [|now apply IH].
  cbn [List.map cat_name]. constructor; [|now apply IH].
  intros Hin. apply in_map_iff in Hin. destruct Hin as [cat [Hname Hin]].
  apply toCategories_entry in Hin. cbn in Hnin. rewrite <- Hname in Hnin.
  tauto.
Qed.

Lemma toCategories_orders (localeCompare : jstring -> jstring -> Z)
  (m : ChannelMap) (k : Z) :
  List.map cat_sortOrder (toCategories localeCompare m k)
  = List.map (fun i => (k + Z.of_nat i)%Z)
      (seq 0 (List.length (toCategories localeCompare m k))).
Proof.
  revert k. induction m as [|[name chans] m IH]; intros k; cbn [toCategories];
    [reflexivity|].
  destruct (0 <? Z.of_nat (List.length chans))%Z; [|apply IH].
  cbn [List.map List.length seq cat_sortOrder]. f_equal; [lia|].
  rewrite IH, <- seq_shift, map_map. apply map_ext. intros i. lia.
Qed.

Lemma sort_ascending (l : list LiveCategory) :
  StronglySorted (fun a b => (cat_sortOrder a <= cat_sortOrder b)%Z) l ->
  sort bySortOrder l = l.
Proof.
  induction 1 as [|x l _ IH Hx]; [reflexivity|].
  cbn [sort]. rewrite IH. destruct l as [|y l']; [reflexivity|].
  cbn [insert]. inversion Hx; subst. unfold bySortOrder.
  destruct (Z.leb_spec (cat_sortOrder x - cat_sortOrder y) 0); [reflexivity | lia].
Qed.

Lemma toCategories_ascending (localeCompare : jstring -> jstring -> Z)
  (m : ChannelMap) (k : Z) :
  StronglySorted (fun a b => (cat_sortOrder a <= cat_sortOrder b)%Z)
    (toCategories localeCompare m k).
Proof.
  revert k. induction m as [|[name chans] m IH]; intros k; cbn [toCategories];
    [constructor|].
  destruct (0 <? Z.of_nat (List.length chans))%Z; [|apply IH].
  constructor; [apply IH|].
  apply Forall_forall. intros cat Hin. apply toCategories_entry in Hin.
  cbn. lia.
Qed.

(** The final sort by [sortOrder] changes nothing. *)
Lemma parse_is_toCategories (localeCompare : jstring -> jstring -> Z)
  (content : jstring) :
  parseChineseTVFormat localeCompare content
  = toCategories localeCompare
      (categories (fold_left processLine (lines_of content) initialState)) 0.
Proof.
  unfold parseChineseTVFormat. apply sort_ascending, toCategories_ascending.
Qed.

(** The categories [parseChineseTVFormat] returns: none is empty, each
    id is the sanitized name, no two have the same name, and their sort
    orders are 0, 1, 2, ... in the order of the list. *)
Theorem parseChineseTVFormat_categories
  (localeCompare : jstring -> jstring -> Z) (content : jstring) :
  let out := parseChineseTVFormat localeCompare content in
  Forall (fun cat => cat_channels cat <> []
                     /\ cat_id cat = sanitize_id (cat_name cat)) out
  /\ NoDup (List.map cat_name out)
  /\ List.map cat_sortOrder out
     = List.map Z.of_nat (seq 0 (List.length out)).
Proof.
  cbv zeta. rewrite parse_is_toCategories.
  split.
  { apply Forall_forall. intros cat Hin.
    apply toCategories_entry in Hin. tauto. }
  split; [apply toCategories_names, final_keys|].
  rewrite toCategories_orders. apply map_ext. intros i. lia.
Qed.

(** *** The channels *)

Lemma channelLine_valid (line name url : jstring) :
  channelLine line = Some (name, url) ->
  name <> [] /\ url <> [] /\ trim name = name /\ trim url = url.
Proof.
  unfold channelLine.
  destruct (negb (truthy line) || startsWith `"#" line); [discriminate|].
  destruct (indexOf arrow line =? -1)%Z; [discriminate|].
  destruct (indexOf `"," _ =? -1)%Z; [discriminate|].
  destruct (negb (truthy _) || negb (truthy _)) eqn:E; [discriminate|].
  intros H. inversion H; subst. clear H.
  apply orb_false_iff in E. destruct E as [E1 E2].
  apply negb_false_iff in E1, E2.
  repeat split; try apply trim_idempotent.
  - intros H0. now rewrite H0 in E1.
  - intros H0. now rewrite H0 in E2.
Qed.

Lemma entriesFrom_valid (lines : list jstring) (cur : jstring) :
  Forall (fun e => entry_name e <> [] /\ entry_url e <> []
                   /\ trim (entry_name e) = entry_name e
                   /\ trim (entry_url e) = entry_url e)
         (entriesFrom cur lines).
Proof.
  revert cur. induction lines as [|line lines IH]; intros cur; [constructor|].
  cbn [entriesFrom]. destruct (includes `",#genre#" line); [apply IH|].
  destruct (channelLine line) as [[name url]|] eqn:E; [|apply IH].
  constructor; [|apply IH]. cbn. now apply channelLine_valid in E.
Qed.

Lemma urlsSeen_In (c n u : jstring) (es : list Entry) :
  In u (urlsSeen c n es) ->
  exists e, In e es /\ entry_category e = c /\ entry_name e = n
            /\ entry_url e = u.
Proof.
  unfold urlsSeen. rewrite in_map_iff. intros [e [Hu Hin]].
  apply filter_In in Hin. destruct Hin as [Hin Hfor].
  unfold isFor in Hfor. apply andb_true_iff in Hfor.
  rewrite !eqb_eq in Hfor. exists e. tauto.
Qed.

Lemma sanitize_id_units (s : jstring) :
  Forall (fun c => id_unit_ok c = true) (sanitize_id s).
Proof.
  unfold sanitize_id. apply Forall_map, Forall_forall. intros c _.
  destruct (id_unit_ok c) eqn:E; [assumption | reflexivity].
Qed.

Lemma names_distinct (chans : list LiveChannel) :
  (forall n, (List.length (filter (named n) chans) <= 1)%nat) ->
  NoDup (List.map ch_name chans).
Proof.
  induction chans as [|x chans IH]; intros H; [constructor|].
  cbn [List.map]. constructor.
  - intros Hin. apply in_map_iff in Hin. destruct Hin as [y [Hy Hin]].
    specialize (H (ch_name x)). cbn [filter] in H.
    unfold named at 1 in H. rewrite eqb_refl in H.
    assert (Hy' : In y (filter (named (ch_name x)) chans)).
    { apply filter_In. split; [assumption|]. unfold named. now apply eqb_eq. }
    destruct (filter (named (ch_name x)) chans); [contradiction|].
    cbn in H. lia.
  - apply IH. intros n. specialize (H n). cbn [filter] in H.
    destruct (named n x); cbn in H; lia.
Qed.

(** The channels of a returned category: their names are pairwise
    distinct, non-empty and trimmed; each carries the category's name,
    the id made from category and name with every unit outside
    letters, digits, CJK and hyphen replaced by a hyphen, the active
    flag, and a non-empty list of non-empty URLs. *)
Theorem parseChineseTVFormat_channels
  (localeCompare : jstring -> jstring -> Z) (content : jstring)
  (cat : LiveCategory)
  (Hcat : In cat (parseChineseTVFormat localeCompare content)) :
  NoDup (List.map ch_name (cat_channels cat))
  /\ forall ch, In ch (cat_channels cat) ->
       ch_category ch = cat_name cat
       /\ ch_id ch = sanitize_id (cat_name cat ++ `"-" ++ ch_name ch)
       /\ Forall (fun c => id_unit_ok c = true) (ch_id ch)
       /\ ch_isActive ch = true
       /\ ch_name ch <> [] /\ trim (ch_name ch) = ch_name ch
       /\ ch_urls ch <> []
       /\ Forall (fun u => u <> [] /\ trim u = u) (ch_urls ch).
Proof.
  pose proof (fun n => @returned_category localeCompare content cat n Hcat)
    as R.
  split.
  { apply names_distinct. intros n. rewrite R. apply expectedChannels_length. }
  intros ch Hch.
  assert (Hsel : In ch (filter (named (ch_name ch)) (cat_channels cat))).
  { apply filter_In. split; [assumption | apply eqb_refl]. }
  rewrite R in Hsel.
  destruct (urlsSeen (cat_name cat) (ch_name ch) (entriesOf content))
    as [|first rest] eqn:U; [contradiction|].
  destruct Hsel as [Heq|[]].
  pose proof (entriesFrom_valid (lines_of content) uncategorized) as V.
  fold (entriesOf content) in V. rewrite Forall_forall in V.
  assert (Hurls : forall u, In u (first :: rest) ->
                    u <> [] /\ trim u = u /\ ch_name ch <> []
                    /\ trim (ch_name ch) = ch_name ch).
  { intros u Hu. rewrite <- U in Hu. apply urlsSeen_In in Hu.
    destruct Hu as (e & He & _ & Hn & Hu). specialize (V e He).
    rewrite Hn, Hu in V. tauto. }
  assert (Hfirst := Hurls first (or_introl eq_refl)).
  rewrite <- Heq.
  cbn [ch_category ch_id ch_isActive ch_name ch_urls set_urls newChannel].
  repeat split; try tauto.
  - apply sanitize_id_units.
  - intros E. pose proof (@dedupe_In (first :: rest) first) as D.
    rewrite E in D. cbn in D. tauto.
  - apply Forall_forall. intros u Hu.
    apply (proj1 (@dedupe_In (first :: rest) u)) in Hu.
    specialize (Hurls u Hu). tauto.
Qed.

(** The channel of the sample's second category. *)
Lemma parseChineseTVFormat_channels_sample :
  ch_category Samples.cctv5 = `"Sports"
  /\ ch_id Samples.cctv5 = sanitize_id (`"Sports" ++ `"-" ++ `"CCTV5 HD").
Proof.
  assert (Hin : In Samples.sports
                  (parseChineseTVFormat Samples.flatCollation
                     Samples.twoGenres)).
  { vm_compute. right; left; reflexivity. }
  destruct (proj2 (parseChineseTVFormat_channels
                     Samples.flatCollation Samples.twoGenres Samples.sports
                     Hin) Samples.cctv5 (or_introl eq_refl))
    as (H1 & H2 & _).
  split; assumption.
Defined.

(** *** No channel line, no category *)





End CatalogMore.

(* ------------------------------------------------------------------ *)
(** ** More on the catalog API *)

Module LiveApiMore.
Import LiveApi LiveApiHandlers LiveApiFacts.

(** *** The cache *)



(** The refresh action never answers from the cache: it returns the
    counts of what the file holds now and stores that; when the file
    cannot be loaded it reports zero categories and zero channels and
    leaves the cache empty, so the snapshot held before is gone and
    the next failing load returns the empty list. *)
Theorem handleRefreshChannels_reloads
  (JSON_parse : jstring -> Outcome LiveData) (now : Z)
  (file : Outcome jstring) (c : Cache) :
  (forall cats, loadCategories JSON_parse file = Returned cats ->
     handleRefreshChannels JSON_parse now file c
     = (Returned {| refreshed_categories := Z.of_nat (List.length cats);
                    refreshed_channels := countChannels cats |},
        {| channelsCache := Some cats; lastCacheUpdate := now |}))
  /\ (forall e, loadCategories JSON_parse file = Thrown e ->
        handleRefreshChannels JSON_parse now file c
        = (Returned {| refreshed_categories := 0; refreshed_channels := 0 |},
           initialCache)
        /\ forall later file' e',
             loadCategories JSON_parse file' = Thrown e' ->
             getChannelsData JSON_parse later file'
               (snd (handleRefreshChannels JSON_parse now file c))
             = (Returned [], initialCache)).
Proof.
  split.
  - intros cats Hload. unfold handleRefreshChannels, getChannelsData, clearCache.
    cbn [channelsCache]. now rewrite Hload.
  - intros e Hload.
    assert (E : handleRefreshChannels JSON_parse now file c
                = (Returned {| refreshed_categories := 0;
                               refreshed_channels := 0 |}, initialCache)).
    { unfold handleRefreshChannels, getChannelsData, clearCache.
      cbn [channelsCache]. now rewrite Hload. }
    split; [exact E|]. intros later file' e' Hload'. rewrite E.
    unfold getChannelsData. cbn. now rewrite Hload'.
Qed.

(** A refresh while the file is unreadable, with a snapshot held. *)
Lemma handleRefreshChannels_loses_snapshot :
  handleRefreshChannels (fun _ => Thrown `"SyntaxError") 1000
    (Thrown `"ENOENT")
    {| channelsCache := Some [Samples.news]; lastCacheUpdate := 0 |}
  = (Returned {| refreshed_categories := 0; refreshed_channels := 0 |},
     initialCache).
Proof.
  apply (proj2 (handleRefreshChannels_reloads
                  (fun _ => Thrown `"SyntaxError") 1000 (Thrown `"ENOENT")
                  {| channelsCache := Some [Samples.news];
                     lastCacheUpdate := 0 |}) `"ENOENT" eq_refl).
Defined.

(** *** One channel by id *)

Lemma find_app (A : Type) (f : A -> bool) (l l' : list A) :
  find f (l ++ l') =
    match find f l with
    | Some x => Some x
    | None => find f l'
    end.
Proof.
  induction l as [|x l IH]; [reflexivity|]. cbn. now destruct (f x).
Qed.

Lemma findChannel_flat (cid : jstring) (cats : list LiveCategory) :
  findChannel cid cats
  = find (fun ch => eqb (ch_id ch) cid) (flat_map cat_channels cats).
Proof.
  induction cats as [|cat cats IH]; [reflexivity|].
  cbn [findChannel flat_map]. rewrite find_app, IH. reflexivity.
Qed.

(** [handleGetChannel] with a non-empty id answers with the first
    channel of that id in catalog order, which then belongs to some
    category, and with status 404 exactly when no channel of any
    category has the id; without an id, or with an empty one, the
    status is 400. *)
Theorem handleGetChannel_lookup (cats : list LiveCategory) (cid : jstring)
  (Hid : cid <> []) :
  handleGetChannel cats (Some cid)
  = match find (fun ch => eqb (ch_id ch) cid) (flat_map cat_channels cats) with
    | Some ch => ChannelFound ch
    | None => ChannelError 404 `"Channel not found"
    end
  /\ (forall ch, handleGetChannel cats (Some cid) = ChannelFound ch ->
        ch_id ch = cid
        /\ exists cat, In cat cats /\ In ch (cat_channels cat))
  /\ (handleGetChannel cats (Some cid) = ChannelError 404 `"Channel not found"
      <-> forall cat ch, In cat cats -> In ch (cat_channels cat) ->
            ch_id ch <> cid)
  /\ handleGetChannel cats None = ChannelError 400 `"Channel ID required"
  /\ handleGetChannel cats (Some []) = ChannelError 400 `"Channel ID required".
Proof.
  assert (E : handleGetChannel cats (Some cid)
              = match find (fun ch => eqb (ch_id ch) cid)
                        (flat_map cat_channels cats) with
                | Some ch => ChannelFound ch
                | None => ChannelError 404 `"Channel not found"
                end).
  { unfold handleGetChannel. rewrite findChannel_flat.
    destruct cid; [congruence | reflexivity]. }
  split; [exact E|]. rewrite E.
  destruct (find _ (flat_map cat_channels cats)) as [x|] eqn:F.
  - apply find_some in F. destruct F as [Hin Hx].
    apply eqb_eq in Hx. apply in_flat_map in Hin.
    split; [|split; [|split; reflexivity]].
    + intros ch H. inversion H; subst. split; [reflexivity | exact Hin].
    + split; [discriminate|]. intros Hnone. exfalso.
      destruct Hin as [cat [Hc Hch]]. exact (Hnone cat x Hc Hch Hx).
  - split; [discriminate|]. split; [|split; reflexivity].
    split; [|reflexivity]. intros _ cat ch Hc Hch Heq.
    assert (Hin : In ch (flat_map cat_channels cats)).
    { apply in_flat_map. eauto. }
    pose proof (find_none _ _ F ch Hin) as Hn. cbn in Hn.
    apply eqb_neq in Hn. contradiction.
Qed.

(** A channel of the sample catalog by its id. *)
Lemma handleGetChannel_lookup_sample :
  handleGetChannel [Samples.news; Samples.sports] (Some `"Sports-CCTV5-HD")
  = ChannelFound Samples.cctv5.
Proof.
  rewrite (proj1 (@handleGetChannel_lookup [Samples.news; Samples.sports]
                    `"Sports-CCTV5-HD" ltac:(discriminate))).
  reflexivity.
Defined.

End LiveApiMore.

(* ------------------------------------------------------------------ *)
(** ** Counting and paging the catalog *)

Module CatalogQueries.
Import LiveApi LiveApiHandlers LiveApiFacts.

Lemma countChannels_from (cats : list LiveCategory) (start : Z) :
  fold_left (fun sum cat => (sum + Z.of_nat (List.length (cat_channels cat)))%Z)
            cats start
  = (start + Z.of_nat (List.length (flat_map cat_channels cats)))%Z.
Proof.
  revert start. induction cats as [|cat cats IH]; intros start; cbn.
  - lia.
  - rewrite IH, length_app. lia.
Qed.

Lemma countChannels_length (cats : list LiveCategory) :
  countChannels cats = Z.of_nat (List.length (flat_map cat_channels cats)).
Proof. unfold countChannels. now rewrite countChannels_from. Qed.

(** The three endpoints count alike: the catalog's [totalChannels] is
    the number of channels of all categories, the sum of the
    [channelCount]s of the category list, and the [total] of the
    channel query without a category filter, whatever the page, the
    limit and the sort key are. *)
Theorem catalog_totals_agree
  (localeCompare : jstring -> jstring -> Z) (cats : list LiveCategory)
  (page limit : Z) (sortKey : jstring) :
  totalChannels (handleGetAll cats)
    = Z.of_nat (List.length (flat_map cat_channels cats))
  /\ totalChannels (handleGetAll cats)
     = fold_right Z.add 0%Z
         (List.map sum_channelCount (handleGetCategories cats))
  /\ pg_total (pagination (handleGetChannels localeCompare cats None
                             page limit sortKey))
     = totalChannels (handleGetAll cats)
  /\ totalCategories (handleGetAll cats)
     = Z.of_nat (List.length (handleGetCategories cats)).
Proof.
  cbn [handleGetAll totalChannels totalCategories].
  rewrite countChannels_length.
  split; [reflexivity|]. split.
  { unfold handleGetCategories. rewrite map_map. cbn [sum_channelCount].
    induction cats as [|cat cats IH]; [reflexivity|].
    cbn [flat_map List.map fold_right]. rewrite length_app, <- IH. lia. }
  split.
  { cbn. unfold sortedChannels. now rewrite sort_length. }
  unfold handleGetCategories. now rewrite length_map.
Qed.

(** *** The largest categories *)

Lemma insert_descending (x : CategoryCount) (l : list CategoryCount) :
  StronglySorted noFewer l ->
  StronglySorted noFewer (insert byCountDescending x l).
Proof.
  induction 1 as [|y l Hl IH Hy]; cbn [insert]; [repeat constructor|].
  unfold byCountDescending at 1.
  destruct (Z.leb_spec (count_count y - count_count x) 0) as [Hle|Hgt].
  - constructor; [now constructor|].
    constructor; [unfold noFewer; lia|].
    eapply Forall_impl; [|exact Hy]. unfold noFewer. intros z. lia.
  - constructor; [exact IH|].
    apply Forall_forall. intros z Hz.
    apply (Permutation_in _ (insert_Permutation byCountDescending x l)) in Hz.
    destruct Hz as [<-|Hz]; [unfold noFewer; lia|].
    rewrite Forall_forall in Hy. now apply Hy.
Qed.

Lemma sort_descending (l : list CategoryCount) :
  StronglySorted noFewer (sort byCountDescending l).
Proof.
  induction l as [|x l IH]; cbn [sort]; [constructor|].
  now apply insert_descending.
Qed.

Lemma sorted_split (l1 l2 : list CategoryCount) :
  StronglySorted noFewer (l1 ++ l2) ->
  StronglySorted noFewer l1
  /\ forall x y, In x l1 -> In y l2 -> noFewer x y.
Proof.
  induction l1 as [|a l1 IH]; cbn [app].
  - intros _. split; [constructor | intros x y []].
  - intros H. inversion H as [|? ? Hs Ha]; subst.
    destruct (IH Hs) as [IH1 IH2]. rewrite Forall_app in Ha.
    split.
    + constructor; tauto.
    + intros x y [<-|Hx] Hy.
      * destruct Ha as [_ Ha]. rewrite Forall_forall in Ha. now apply Ha.
      * now apply IH2.
Qed.

(** [topCategories] lists the five categories with the most channels,
    or all of them when there are fewer: its entries are name and
    channel count of categories of the catalog, in descending order of
    count, and every category left out has no more channels than any
    category listed. *)
Theorem handleGetAll_top (cats : list LiveCategory) :
  let counts :=
    List.map (fun cat => {| count_category := cat_name cat;
                            count_count :=
                              Z.of_nat (List.length (cat_channels cat)) |})
             cats in
  let top := topCategories (handleGetAll cats) in
  List.length top = Nat.min 5 (List.length cats)
  /\ StronglySorted noFewer top
  /\ (forall x, In x top -> In x counts)
  /\ exists others,
       Permutation (top ++ others) counts
       /\ forall x y, In x top -> In y others -> noFewer x y.
Proof.
  intros counts top.
  assert (Htop : top = firstn 5 (sort byCountDescending counts)).
  { unfold top, handleGetAll. cbn [topCategories]. fold counts.
    rewrite slice_window by lia. reflexivity. }
  pose proof (sort_descending counts) as Hs.
  rewrite <- (firstn_skipn 5 (sort byCountDescending counts)) in Hs.
  apply sorted_split in Hs. destruct Hs as [Hs1 Hs2].
  rewrite <- Htop in Hs1, Hs2.
  split.
  { rewrite Htop, length_firstn, sort_length. unfold counts.
    now rewrite length_map. }
  split; [exact Hs1|].
  split.
  { intros x Hx. rewrite Htop in Hx.
    apply (sort_In byCountDescending).
    rewrite <- (firstn_skipn 5 (sort byCountDescending counts)).
    apply in_or_app. now left. }
  exists (skipn 5 (sort byCountDescending counts)).
  split; [|exact Hs2].
  rewrite Htop, firstn_skipn. apply sort_Permutation.
Qed.

(** The sample catalog has two categories, both listed. *)
Lemma handleGetAll_top_sample :
  List.length (topCategories (handleGetAll [Samples.news; Samples.sports])) = 2.
Proof.
  exact (proj1 (handleGetAll_top [Samples.news; Samples.sports])).
Defined.

(** *** Pages *)

Lemma page_channels (localeCompare : jstring -> jstring -> Z)
  (cats : list LiveCategory) (categoryId : option jstring) (p L : nat)
  (sortKey : jstring) :
  channels (handleGetChannels localeCompare cats categoryId
              (Z.of_nat (S p)) (Z.of_nat L) sortKey)
  = firstn L (skipn (p * L)
                (sortedChannels localeCompare cats categoryId sortKey)).
Proof.
  unfold handleGetChannels. cbn [channels].
  rewrite slice_window by nia. f_equal; [lia|]. f_equal. nia.
Qed.

Lemma firstn_plus (A : Type) (a b : nat) (l : list A) :
  firstn (a + b) l = firstn a l ++ firstn b (skipn a l).
Proof.
  revert l. induction a as [|a IH]; intros l; [reflexivity|].
  destruct l as [|x l]; cbn; [now rewrite firstn_nil | now rewrite IH].
Qed.

Lemma pages_concat (A : Type) (L k : nat) (l : list A) :
  flat_map (fun p => firstn L (skipn (p * L) l)) (seq 0 k) = firstn (k * L) l.
Proof.
  induction k as [|k IH]; [reflexivity|].
  rewrite seq_S, flat_map_app, IH. cbn [flat_map Nat.add].
  rewrite app_nil_r, <- firstn_plus. f_equal. lia.
Qed.

(** The pages of a query partition the sorted list: for a limit
    [L >= 1] the page count is a natural number [k], and pages 1 to [k]
    one after the other are the sorted channel list, nothing repeated
    and nothing left out; pages after [k] are empty. *)
Theorem handleGetChannels_pages_cover
  (localeCompare : jstring -> jstring -> Z) (cats : list LiveCategory)
  (categoryId : option jstring) (L : nat) (sortKey : jstring)
  (HL : (1 <= L)%nat) :
  exists k : nat,
    (forall page,
       pg_pages (pagination (handleGetChannels localeCompare cats categoryId
                               page (Z.of_nat L) sortKey))
       = Finite (Z.of_nat k))
    /\ flat_map (fun p => channels (handleGetChannels localeCompare cats
                                      categoryId (Z.of_nat (S p))
                                      (Z.of_nat L) sortKey))
                (seq 0 k)
       = sortedChannels localeCompare cats categoryId sortKey
    /\ forall p, (k <= p)%nat ->
         channels (handleGetChannels localeCompare cats categoryId
                     (Z.of_nat (S p)) (Z.of_nat L) sortKey) = [].
Proof.
  set (sorted := sortedChannels localeCompare cats categoryId sortKey).
  destruct (@ceil_div_positive (Z.of_nat (List.length sorted)) (Z.of_nat L)
              ltac:(lia)) as [k [Hk Hbounds]].
  assert (Hk0 : (0 <= k)%Z) by nia.
  exists (Z.to_nat k). split; [|split].
  - intros page. unfold handleGetChannels. cbn [pagination pg_pages].
    fold sorted. rewrite Hk. f_equal. lia.
  - rewrite (flat_map_ext _ _ (fun p => @page_channels localeCompare cats
                                          categoryId p L sortKey)).
    fold sorted. rewrite pages_concat. apply firstn_all2. nia.
  - intros p Hp. rewrite page_channels. fold sorted.
    rewrite skipn_all2; [apply firstn_nil | nia].
Qed.

(** Two channels, one per page. *)
Lemma handleGetChannels_pages_cover_sample :
  exists k : nat,
    flat_map (fun p => channels (handleGetChannels Samples.flatCollation
                                   [Samples.news; Samples.sports] None
                                   (Z.of_nat (S p)) 1 `"quality"))
             (seq 0 k)
    = [Samples.cctv5; Samples.cctv1].
Proof.
  destruct (@handleGetChannels_pages_cover Samples.flatCollation
              [Samples.news; Samples.sports] None 1 `"quality"
              (le_n 1)) as [k [_ [Hk _]]].
  exists k. exact Hk.
Defined.

(** The edges of the channel query: a category id that no category has
    gives no channel, total 0 and, for a limit [L >= 1], 0 pages; a
    limit of 0 gives no channel on any page and a page count that is
    not a number when the list is empty and infinite otherwise. *)
Theorem handleGetChannels_edges
  (localeCompare : jstring -> jstring -> Z) (cats : list LiveCategory)
  (categoryId : option jstring) (page : Z) (sortKey : jstring) :
  (forall cid L,
     cid <> [] ->
     (forall cat, In cat cats -> cat_id cat <> cid) ->
     (1 <= L)%Z ->
     handleGetChannels localeCompare cats (Some cid) page L sortKey
     = {| channels := [];
          pagination := {| pg_page := page; pg_limit := L; pg_total := 0;
                           pg_pages := Finite 0 |} |})
  /\ channels (handleGetChannels localeCompare cats categoryId page 0 sortKey)
     = []
  /\ pg_pages (pagination (handleGetChannels localeCompare cats categoryId
                             page 0 sortKey))
     = match sortedChannels localeCompare cats categoryId sortKey with
       | [] => NaN
       | _ :: _ => Infinity
       end.
Proof.
  split; [|split].
  - intros cid L Hcid Hnone HL.
    assert (Hsel : selectChannels cats (Some cid) = []).
    { unfold selectChannels. destruct cid; [congruence|]. cbn [truthy].
      destruct (find _ cats) as [cat|] eqn:F; [|reflexivity].
      apply find_some in F. destruct F as [Hin Heq]. apply eqb_eq in Heq.
      now apply Hnone in Hin. }
    unfold handleGetChannels, sortedChannels. rewrite Hsel. cbn [sort].
    unfold slice, ceil_div. cbn [List.length Z.of_nat].
    rewrite skipn_nil, firstn_nil.
    destruct (Z.eqb_spec L 0); [lia|]. reflexivity.
  - unfold handleGetChannels. cbn [channels].
    replace ((page - 1) * 0)%Z with 0%Z by lia.
    rewrite slice_window by lia. reflexivity.
  - unfold handleGetChannels. cbn [pagination pg_pages].
    now destruct (sortedChannels localeCompare cats categoryId sortKey).
Qed.

(** A category id the sample catalog does not have. *)
Lemma handleGetChannels_edges_unknown_category :
  handleGetChannels Samples.flatCollation [Samples.news; Samples.sports]
    (Some `"Movies") 1 50 `"name"
  = {| channels := [];
       pagination := {| pg_page := 1; pg_limit := 50; pg_total := 0;
                        pg_pages := Finite 0 |} |}.
Proof.
  apply (proj1 (handleGetChannels_edges Samples.flatCollation
                  [Samples.news; Samples.sports] None 1 `"name")).
  - discriminate.
  - intros cat [<-|[<-|[]]]; discriminate.
  - lia.
Defined.

End CatalogQueries.

(* ------------------------------------------------------------------ *)
(** ** More on the proxy gateway *)

Module GatewayMore.
Import ProxyGateway GatewayCalls StringMore.

Lemma headers_set_names (key value : jstring) (hs : Headers) (n : jstring) :
  In n (names (headers_set key value hs)) ->
  In n (names hs) \/ n = toLowerCase key.
Proof.
  unfold names, headers_set. rewrite map_app, in_app_iff. cbn.
  intros [H|[H|[]]]; [left | right; now symmetry].
  apply in_map_iff in H. destruct H as [kv [<- Hin]].
  apply filter_In in Hin. apply in_map. tauto.
Qed.

Lemma copy_headers_names (keys : list jstring) (from to : Headers)
  (n : jstring) :
  In n (names (copy_headers keys from to)) ->
  In n (names to) \/ In n (List.map toLowerCase keys).
Proof.
  unfold copy_headers. revert to.
  induction keys as [|key keys IH]; intros to; cbn [fold_left List.map];
    [tauto|].
  intros H. apply IH in H. destruct H as [H|H]; [|right; now right].
  destruct (headers_get key from) as [value|]; [|now left].
  destruct (truthy value); [|now left].
  apply headers_set_names in H. destruct H as [H|H]; [now left|].
  right. left. now symmetry.
Qed.




Section Platform.

Variable newURL : URLConstructor.
Variable fetch : FetchCall -> Outcome UpstreamResponse.

Lemma GET_log (request : Request) (host : jstring) (rest : list jstring)
  (url target : URLParts) :
  newURL (req_url request) = Returned url ->
  newURL (targetUrlOf host rest (url_search url)) = Returned target ->
  snd (GET newURL fetch request (Some (host :: rest)))
  = [getCall request host rest url target].
Proof.
  intros U T. unfold GET. rewrite U, T. fold (getCall request host rest url target).
  destruct (fetch _) as [r|e]; [destruct (negb (up_ok r))|]; reflexivity.
Qed.

Lemma HEAD_log (request : Request) (host : jstring) (rest : list jstring)
  (url target : URLParts) :
  newURL (req_url request) = Returned url ->
  newURL (targetUrlOf host rest (url_search url)) = Returned target ->
  snd (HEAD newURL fetch request (Some (host :: rest)))
  = [headCall host rest url target].
Proof.
  intros U T. unfold HEAD. rewrite U, T. fold (headCall host rest url target).
  destruct (fetch _); reflexivity.
Qed.

(** Whatever a GET or HEAD request carries, the gateway contacts the
    upstream at most once, with the same method, for the URL
    "https://" host "/" path-segments-joined-by-"/" query, which the URL
    class has accepted, and the request it sends carries no header
    besides range, accept, user-agent, origin and referer: cookies and
    authorization headers of the client are not passed on. *)
Theorem upstream_contact (request : Request) (host : jstring)
  (rest : list jstring) (call : FetchCall)
  (Hcall : In call (snd (GET newURL fetch request (Some (host :: rest))))
           \/ In call (snd (HEAD newURL fetch request (Some (host :: rest))))) :
  (exists url target,
     newURL (req_url request) = Returned url
     /\ newURL (fetch_url call) = Returned target
     /\ fetch_url call
        = `"https://" ++ host ++ `"/" ++ join `"/" rest ++ url_search url)
  /\ (forall n, In n (names (fetch_headers call)) -> In n forwardedNames)
  /\ (In call (snd (GET newURL fetch request (Some (host :: rest)))) ->
      fetch_method call = GET_
      /\ snd (GET newURL fetch request (Some (host :: rest))) = [call])
  /\ (In call (snd (HEAD newURL fetch request (Some (host :: rest)))) ->
      fetch_method call = HEAD_
      /\ snd (HEAD newURL fetch request (Some (host :: rest))) = [call]).
Proof.
  assert (Hparsed : exists url target,
            newURL (req_url request) = Returned url
            /\ newURL (targetUrlOf host rest (url_search url))
               = Returned target).
  { unfold GET, HEAD in Hcall.
    destruct (newURL (req_url request)) as [url|e];
      [|cbn in Hcall; tauto].
    destruct (newURL (targetUrlOf host rest (url_search url))) as [target|e]
      eqn:T; [|cbn in Hcall; tauto].
    eauto. }
  destruct Hparsed as (url & target & U & T).
  rewrite (@GET_log request host rest url target U T),
          (@HEAD_log request host rest url target U T) in *.
  assert (Hnames : forall n, In n (names (fetch_headers call)) ->
                     In n forwardedNames).
  { intros n Hn.
    destruct Hcall as [[<-|[]]|[<-|[]]]; cbn [fetch_headers getCall headCall] in Hn.
    - apply headers_set_names in Hn. destruct Hn as [Hn| ->];
        [|cbn; tauto].
      apply headers_set_names in Hn. destruct Hn as [Hn| ->];
        [|cbn; tauto].
      apply copy_headers_names in Hn. cbn in Hn. cbn. tauto.
    - apply headers_set_names in Hn. destruct Hn as [Hn| ->];
        [|cbn; tauto].
      apply headers_set_names in Hn. destruct Hn as [Hn| ->];
        [|cbn; tauto].
      contradiction. }
  split.
  { exists url, target.
    destruct Hcall as [[<-|[]]|[<-|[]]]; cbn [fetch_url getCall headCall]; auto. }
  split; [exact Hnames|].
  split.
  - intros [<-|[]]. split; reflexivity.
  - intros [<-|[]]. split; reflexivity.
Qed.

End Platform.

End GatewayMore.

(* ------------------------------------------------------------------ *)
(** ** What the gateway answers *)

Module GatewayAnswers.
Import ProxyGateway GatewayCalls GatewaySamples GatewayMore StringMore.



Section Platform.

Variable newURL : URLConstructor.
Variable fetch : FetchCall -> Outcome UpstreamResponse.



End Platform.

(** The request of the sample reaches the upstream as a GET. *)
Lemma upstream_contact_sample :
  fetch_method (getCall segmentRequest `"a.b" [`"c"] requestUrl targetUrl)
  = GET_
  /\ snd (GET PlainURL.construct unreachable segmentRequest
            (Some [`"a.b"; `"c"]))
     = [getCall segmentRequest `"a.b" [`"c"] requestUrl targetUrl].
Proof.
  assert (Hin : In (getCall segmentRequest `"a.b" [`"c"] requestUrl targetUrl)
                  (snd (GET PlainURL.construct unreachable segmentRequest
                          (Some [`"a.b"; `"c"])))).
  { vm_compute. left. reflexivity. }
  exact (proj1 (proj2 (proj2 (@upstream_contact PlainURL.construct
                                unreachable segmentRequest `"a.b" [`"c"]
                                _ (or_introl Hin)))) Hin).
Defined.





End GatewayAnswers.

(* ------------------------------------------------------------------ *)
(** ** More on playback sessions *)

Module SessionMore.
Import LivePlayPage Sessions SessionActions SessionFacts.

Section InBrowser.

Variable b : Browser.

Lemma handleSourceSelect_frame (i : nat) (s : Player) :
  channel (handleSourceSelect b i s) = channel s
  /\ (currentUrlIndex (handleSourceSelect b i s) = i
      \/ handleSourceSelect b i s = s).
Proof.
  unfold handleSourceSelect. destruct (channel s) as [ch|] eqn:Hch;
    [|split; [assumption | now right]].
  destruct (Nat.eqb_spec i (currentUrlIndex s)) as [E|E];
    [split; [assumption | now right]|].
  unfold rerender. cbn [currentUrlIndex setShowSourceSelector setCurrentUrlIndex].
  destruct (Nat.eqb_spec (currentUrlIndex s) i); [congruence|].
  rewrite (proj1 (loadVideo_frame _ _ _)), (proj2 (loadVideo_frame _ _ _)).
  cbn [channel currentUrlIndex setShowSourceSelector setCurrentUrlIndex].
  rewrite (proj1 (destroyHls_frame s)). split; [assumption | now left].
Qed.

Lemma openChannel_frame (ch : LiveChannel) :
  channel (openChannel b ch) = Some ch
  /\ currentUrlIndex (openChannel b ch) = 0.
Proof.
  unfold openChannel.
  rewrite (proj1 (loadVideo_frame _ _ _)), (proj2 (loadVideo_frame _ _ _)).
  split; reflexivity.
Qed.

Lemma nextIndex_below (n i : nat) : (0 < n)%nat -> (nextIndex n i < n)%nat.
Proof.
  intros Hn. unfold nextIndex.
  destruct (Nat.ltb_spec (i + 1) n); lia.
Qed.

Lemma perform_in_range (s : Player) (ch : LiveChannel) (a : Action) :
  channel s = Some ch ->
  (currentUrlIndex s < List.length (ch_urls ch))%nat ->
  offered (List.length (ch_urls ch)) a ->
  channel (perform b s a) = Some ch
  /\ (currentUrlIndex (perform b s a) < List.length (ch_urls ch))%nat.
Proof.
  intros Hch Hidx Ha. destruct a as [|i|m]; cbn [perform offered] in *.
  - rewrite handleRetry_channel, (@handleRetry_index b s ch Hch).
    split; [assumption|]. apply nextIndex_below. lia.
  - destruct (handleSourceSelect_frame i s) as [Hc [Hi|Hs]].
    + rewrite Hc, Hi. tauto.
    + rewrite Hs. tauto.
  - tauto.
Qed.

(** The index never leaves the candidate list: in a session opened on a
    channel with at least one URL, after any sequence of fatal errors,
    retries and selections of listed sources, the session still holds
    the channel and its index points at one of the channel's URLs. *)
Theorem index_stays_in_range (ch : LiveChannel) (actions : list Action)
  (Hurls : ch_urls ch <> [])
  (Hoffered : Forall (offered (List.length (ch_urls ch))) actions) :
  channel (run b (openChannel b ch) actions) = Some ch
  /\ exists url,
       nth_error (ch_urls ch)
         (currentUrlIndex (run b (openChannel b ch) actions)) = Some url.
Proof.
  assert (H : channel (run b (openChannel b ch) actions) = Some ch
              /\ (currentUrlIndex (run b (openChannel b ch) actions)
                  < List.length (ch_urls ch))%nat).
  { destruct (openChannel_frame ch) as [Hc Hi].
    assert (H0 : (currentUrlIndex (openChannel b ch)
                  < List.length (ch_urls ch))%nat).
    { rewrite Hi. destruct (ch_urls ch); [congruence | simpl; lia]. }
    clear Hi. revert Hc H0. generalize (openChannel b ch).
    induction Hoffered as [|a actions Ha _ IH]; intros s Hc Hi; [tauto|].
    cbn [run fold_left].
    destruct (@perform_in_range s ch a Hc Hi Ha) as [Hc' Hi'].
    exact (IH _ Hc' Hi'). }
  destruct H as [Hc Hi]. split; [assumption|].
  apply nth_error_Some in Hi.
  destruct (nth_error (ch_urls ch) _) as [url|]; [eauto | congruence].
Qed.

(** [k] retries move the index [k] places round the candidate list;
    as many retries as there are candidates bring it back. *)
Theorem retries_cycle (s : Player) (ch : LiveChannel) (k : nat)
  (Hch : channel s = Some ch)
  (Hidx : (currentUrlIndex s < List.length (ch_urls ch))%nat) :
  currentUrlIndex (Nat.iter k (handleRetry b) s)
    = (currentUrlIndex s + k) mod List.length (ch_urls ch)
  /\ currentUrlIndex (Nat.iter (List.length (ch_urls ch)) (handleRetry b) s)
     = currentUrlIndex s.
Proof.
  set (n := List.length (ch_urls ch)) in *.
  assert (Hn : n <> 0) by lia.
  assert (G : forall j,
             channel (Nat.iter j (handleRetry b) s) = Some ch
             /\ currentUrlIndex (Nat.iter j (handleRetry b) s)
                = (currentUrlIndex s + j) mod n).
  { induction j as [|j [IHc IHi]].
    - cbn. rewrite Nat.add_0_r, Nat.mod_small by assumption. tauto.
    - rewrite !Nat.iter_succ. rewrite handleRetry_channel.
      split; [assumption|].
      rewrite (@handleRetry_index b _ ch IHc). fold n. rewrite IHi.
      unfold nextIndex.
      pose proof (Nat.mod_upper_bound (currentUrlIndex s + j) n Hn) as Hb.
      replace (currentUrlIndex s + S j) with (currentUrlIndex s + j + 1)
        by lia.
      rewrite <- (Nat.Div0.add_mod_idemp_l (currentUrlIndex s + j) 1 n).
      destruct (Nat.ltb_spec ((currentUrlIndex s + j) mod n + 1) n).
      + symmetry. now apply Nat.mod_small.
      + replace ((currentUrlIndex s + j) mod n + 1) with n by lia.
        symmetry. apply Nat.Div0.mod_same. }
  split; [apply G|].
  rewrite (proj2 (G n)).
  rewrite <- (Nat.Div0.add_mod_idemp_r (currentUrlIndex s) n n).
  rewrite Nat.Div0.mod_same, Nat.add_0_r. now apply Nat.mod_small.
Qed.

(** Selecting another source sets the index to it, closes the selector,
    keeps the channel and enters the connecting state (the error state
    when the player cannot be set up for that URL), and does not add
    an engine to a session that has at most the one its video element
    refers to; selecting the current source changes nothing. *)
Theorem handleSourceSelect_switches (s : Player) (ch : LiveChannel) (i : nat)
  (Hch : channel s = Some ch) :
  (i <> currentUrlIndex s ->
   let s' := handleSourceSelect b i s in
   currentUrlIndex s' = i
   /\ channel s' = Some ch
   /\ showSourceSelector s' = false
   /\ streamStatus s' =
        match playbackUrl b (ch_urls ch) i with
        | Returned _ => connecting
        | Thrown _ => error
        end
   /\ (SingleEngine s -> SingleEngine s'))
  /\ handleSourceSelect b (currentUrlIndex s) s = s.
Proof.
  split.
  - intros Hne s'.
    assert (E : s' = loadVideo b i
                       (setShowSourceSelector false
                          (setCurrentUrlIndex i (destroyHls s)))).
    { unfold s', handleSourceSelect. rewrite Hch.
      destruct (Nat.eqb_spec i (currentUrlIndex s)); [contradiction|].
      unfold rerender.
      cbn [currentUrlIndex setShowSourceSelector setCurrentUrlIndex].
      destruct (Nat.eqb_spec (currentUrlIndex s) i); [congruence|].
      reflexivity. }
    assert (Hmid : channel (setShowSourceSelector false
                              (setCurrentUrlIndex i (destroyHls s)))
                   = Some ch).
    { cbn. now rewrite (proj1 (destroyHls_frame s)). }
    split.
    { rewrite E, (proj2 (loadVideo_frame _ _ _)). reflexivity. }
    split.
    { rewrite E, (proj1 (loadVideo_frame _ _ _)). exact Hmid. }
    split.
    { rewrite E. unfold loadVideo. rewrite Hmid.
      rewrite startPlayback_playbackUrl.
      destruct (playbackUrl b (ch_urls ch) i) as [url|e]; cbn [bind try_catch];
        [destruct (includes `".m3u8" url && hlsSupported b)|]; reflexivity. }
    split.
    { rewrite E. exact (proj1 (@loadVideo_status b i _ ch Hmid)). }
    intros Hs. unfold s'. now apply handleSourceSelect_single.
  - unfold handleSourceSelect. rewrite Hch. now rewrite Nat.eqb_refl.
Qed.

(** A channel with a single source never has two engines: in a session
    opened on it, after any sequence of fatal errors, retries and
    selections of the listed source, the engines alive are exactly the
    one the video element refers to, if any. *)
Theorem single_source_single_engine (ch : LiveChannel) (url : jstring)
  (actions : list Action)
  (Hone : ch_urls ch = [url])
  (Hoffered : Forall (offered 1) actions) :
  SingleEngine (run b (openChannel b ch) actions).
Proof.
  destruct (openChannel_frame ch) as [Hc Hi].
  pose proof (openChannel_single b ch) as Hs.
  revert Hc Hi Hs. generalize (openChannel b ch).
  induction Hoffered as [|a actions Ha _ IH]; intros s Hc Hi Hs; [exact Hs|].
  cbn [run fold_left]. apply IH.
  - destruct a as [|i|m]; cbn [perform].
    + now rewrite handleRetry_channel.
    + now rewrite (proj1 (handleSourceSelect_frame i s)).
    + assumption.
  - destruct a as [|i|m]; cbn [perform].
    + rewrite (@handleRetry_index b s ch Hc), Hone, Hi. reflexivity.
    + cbn in Ha. destruct (handleSourceSelect_frame i s) as [_ [H|H]];
        [rewrite H; lia | now rewrite H].
    + assumption.
  - destruct a as [|i|m]; cbn [perform].
    + apply (@handleRetry_single_unless_wrap b s ch Hc Hs). now right.
    + now apply handleSourceSelect_single.
    + exact Hs.
Qed.

End InBrowser.

(** Three sources: a selection, errors and retries. *)
Lemma index_stays_in_range_sample :
  channel (run httpPage (openChannel httpPage threeSources)
             [SelectSource 2; fatal; Retry; fatal; Retry])
  = Some threeSources.
Proof.
  apply (@index_stays_in_range httpPage threeSources
           [SelectSource 2; fatal; Retry; fatal; Retry]).
  - discriminate.
  - repeat constructor; cbn; lia.
Defined.

(** Three retries on three sources. *)
Lemma retries_cycle_sample :
  currentUrlIndex
    (Nat.iter 3 (handleRetry httpPage) (openChannel httpPage threeSources))
  = 0.
Proof.
  apply (proj2 (@retries_cycle httpPage (openChannel httpPage threeSources)
                  threeSources 0 eq_refl ltac:(cbn; lia))).
Defined.

(** From the first of two sources to the second. *)
Lemma handleSourceSelect_switches_sample :
  currentUrlIndex (handleSourceSelect httpPage 1
                     (openChannel httpPage twoSources)) = 1.
Proof.
  apply (proj1 (@handleSourceSelect_switches httpPage
                  (openChannel httpPage twoSources) twoSources 1 eq_refl)).
  discriminate.
Defined.

(** One source, retried twice. *)
Lemma single_source_single_engine_sample :
  SingleEngine
    (run httpPage (openChannel httpPage (channelWith [`"http://x/a.m3u8"]))
       [fatal; Retry; SelectSource 0; fatal; Retry]).
Proof.
  apply (@single_source_single_engine httpPage
           (channelWith [`"http://x/a.m3u8"]) `"http://x/a.m3u8"
           [fatal; Retry; SelectSource 0; fatal; Retry] eq_refl).
  repeat constructor.
Defined.

End SessionMore.

(* ------------------------------------------------------------------ *)
(** ** More on URL rewriting *)

Module RewriterMore.
Import LivePlayPage Sessions RewriterFacts.

Lemma processChannelUrl_idempotent (newURL : URLConstructor) (url : jstring) :
  LiveChannelList.processChannelUrl newURL
    (LiveChannelList.processChannelUrl newURL url)
  = LiveChannelList.processChannelUrl newURL url.
Proof.
  destruct (startsWith `"https://" url) eqn:S.
  - destruct (newURL url) as [u|e] eqn:U.
    + assert (E : LiveChannelList.processChannelUrl newURL url
                  = `"/proxy/" ++ url_host u ++ url_pathname u
                    ++ url_search u).
      { unfold LiveChannelList.processChannelUrl. now rewrite S, U. }
      rewrite E. reflexivity.
    + assert (E : LiveChannelList.processChannelUrl newURL url = url).
      { unfold LiveChannelList.processChannelUrl. now rewrite S, U. }
      now rewrite !E.
  - assert (E : LiveChannelList.processChannelUrl newURL url = url).
    { unfold LiveChannelList.processChannelUrl. now rewrite S. }
    now rewrite !E.
Qed.

(** [processChannelUrls] keeps the number and the order of the URLs,
    changes none that does not start with "https://", changes nothing
    at all on a page that is not served over plain HTTP, touches no
    other field, and applied a second time changes nothing more. *)
Theorem processChannelUrls_stable (pageProtocol : option jstring)
  (newURL : URLConstructor) (ch : LiveChannel) :
  let ch' := LiveChannelList.processChannelUrls pageProtocol newURL ch in
  List.length (ch_urls ch') = List.length (ch_urls ch)
  /\ (forall i url, nth_error (ch_urls ch) i = Some url ->
        startsWith `"https://" url = false ->
        nth_error (ch_urls ch') i = Some url)
  /\ (pageProtocol <> Some `"http:" -> ch' = ch)
  /\ (ch_id ch' = ch_id ch /\ ch_name ch' = ch_name ch
      /\ ch_category ch' = ch_category ch)
  /\ LiveChannelList.processChannelUrls pageProtocol newURL ch' = ch'.
Proof.
  cbv zeta. unfold LiveChannelList.processChannelUrls.
  destruct (LiveChannelList.onPage pageProtocol `"http:") eqn:P.
  - cbn [ch_urls ch_id ch_name ch_category LiveChannelParser.set_urls].
    split; [apply length_map|].
    split.
    { intros i url Hi Hs. rewrite nth_error_map, Hi. cbn.
      unfold LiveChannelList.processChannelUrl. now rewrite Hs. }
    split.
    { intros Hp. exfalso. apply Hp. unfold LiveChannelList.onPage in P.
      destruct pageProtocol as [p|]; [|discriminate].
      apply eqb_eq in P. now subst. }
    split; [tauto|].
    unfold LiveChannelParser.set_urls. cbn. f_equal.
    rewrite map_map. apply map_ext. intros url.
    apply processChannelUrl_idempotent.
  - repeat split; auto.
Qed.

(** A URL the channel list has rewritten is not rewritten again by the
    player: on a page served over plain HTTP, [processUrl] gives for
    the list's result what it gives for the original URL. *)
Theorem no_double_proxying (b : Browser) (url : jstring)
  (Hpage : pageProtocol b = Some `"http:") :
  processUrl b (LiveChannelList.processChannelUrl (newURL b) url)
  = processUrl b url.
Proof.
  unfold LiveChannelList.processChannelUrl.
  destruct (startsWith `"https://" url) eqn:S; [|reflexivity].
  destruct (newURL b url) as [u|e] eqn:U; cbn [bind try_catch];
    [|reflexivity].
  pose proof Hpage as Hon. apply onPage_true in Hon.
  assert (Hhttps : onPage b `"https:" = false).
  { unfold onPage. rewrite Hpage. reflexivity. }
  assert (E : processUrl b url
              = Returned (`"/proxy/" ++ url_host u ++ url_pathname u
                          ++ url_search u)).
  { unfold processUrl. now rewrite Hon, S, U. }
  rewrite E. unfold processUrl. rewrite Hon, Hhttps.
  assert (H1 : startsWith `"https://"
                 (`"/proxy/" ++ url_host u ++ url_pathname u ++ url_search u)
               = false) by reflexivity.
  rewrite H1, !andb_false_r. reflexivity.
Qed.

(** The list's and the player's rewriting of the sample URL. *)
Lemma no_double_proxying_sample :
  processUrl httpPage `"/proxy/a.b/c?d=1" = Returned `"/proxy/a.b/c?d=1".
Proof.
  exact (@no_double_proxying httpPage `"https://a.b/c?d=1" eq_refl).
Defined.

(** On an HTTPS page the list leaves the sample channel alone. *)
Lemma processChannelUrls_stable_sample :
  LiveChannelList.processChannelUrls (Some `"https:") PlainURL.construct
    twoSources = twoSources.
Proof.
  apply (proj1 (proj2 (proj2 (@processChannelUrls_stable (Some `"https:")
                                PlainURL.construct twoSources)))).
  discriminate.
Defined.

End RewriterMore.
